(** * gunpowder: RandomLocation and Normalize

    A shallow embedding of [gunpowder/nodes/random_location.py] and
    [gunpowder/nodes/normalize.py].

    Conventions of the embedding.
    - A [Coordinate] is a Python tuple of integers: [list Z].  The elementwise
      operators zip their arguments, as the Python generators do.
    - Python dictionaries are [gmap]s; a loop over [d.items()] runs over
      [map_to_list d], so no statement depends on an iteration order.
    - Randomness ([random.randint], [numpy.random.choice]) is read from a
      tape of integers threaded through the computation; exceptions are the
      [Raise] outcome of the same monad.
    - The unbounded [while] loop of [prepare] takes fuel; [OutOfFuel] is the
      outcome of a run that used it up.
    - Python floats are IEEE 754 binary64 numbers, numpy's float32 and
      float16 the narrower formats, all computed with [SpecFloat].
    - Names are taken as the modules write them: a name a module neither
      imports nor defines raises a [NameError], an attribute its class does
      not have an [AttributeError]. *)

From Stdlib Require Import ZArith Lia.
From Stdlib Require Import Floats.SpecFloat.
From stdpp Require Import gmap strings list fin_maps.

Open Scope Z_scope.
#[local] Set Warnings "-clear-no-such-hyp".

(** ** Coordinates *)

Module Coord.

Abbreviation Coordinate := (list Z).

Definition add (a b : Coordinate) : Coordinate := zip_with Z.add a b.
Definition sub (a b : Coordinate) : Coordinate := zip_with Z.sub a b.
Definition mul (a b : Coordinate) : Coordinate := zip_with Z.mul a b.

(** Python's integer division rounds towards minus infinity, as [Z.div]. *)
Definition div (a b : Coordinate) : Coordinate := zip_with Z.div a b.
Definition neg (a : Coordinate) : Coordinate := Z.opp <$> a.

(** [all(f(x, y) for x, y in zip(a, b))] *)
Fixpoint all2 (f : Z → Z → bool) (a b : Coordinate) : bool :=
  match a, b with
  | x :: a', y :: b' => f x y && all2 f a' b'
  | _, _ => true
  end.

Definition le (a b : Coordinate) : bool := all2 Z.leb a b.
Definition lt (a b : Coordinate) : bool := all2 Z.ltb a b.

End Coord.

Import Coord.

(** ** Regions of interest

    [gunpowder/roi.py] is not among the sources; the operations below follow
    the description of the Roi algebra. *)

Module RoiAlg.

Record Roi := mkRoi { offset : Coordinate; shape : Coordinate }.

Definition get_offset (r : Roi) : Coordinate := offset r.
Definition get_shape (r : Roi) : Coordinate := shape r.

(** Modelled from the spec: [Roi.get_begin], "begin = offset". *)
Definition get_begin (r : Roi) : Coordinate := offset r.

(** Modelled from the spec: [Roi.get_end], "end = offset + shape". *)
Definition get_end (r : Roi) : Coordinate := add (offset r) (shape r).

(** Modelled from the spec: [Roi.shift], the region moved by [d]. *)
Definition shift (r : Roi) (d : Coordinate) : Roi :=
  mkRoi (add (offset r) d) (shape r).

(** Modelled from the spec: [Roi.grow], "expand/shrink each face": the lower
    faces move down by [amount_neg], the upper faces up by [amount_pos]. *)
Definition grow (r : Roi) (amount_neg amount_pos : Coordinate) : Roi :=
  mkRoi (sub (offset r) amount_neg)
        (add (add (shape r) amount_neg) amount_pos).

(** Modelled from the spec: [Roi.intersect], "the overlapping Roi (possibly
    empty)", which for two regions without overlap is "a
    zero-or-negative-shape result". *)
Definition intersect (a b : Roi) : Roi :=
  let lo := zip_with Z.max (get_begin a) (get_begin b) in
  let hi := zip_with Z.min (get_end a) (get_end b) in
  mkRoi lo (sub hi lo).

(** Modelled from the spec: [Roi.contains] on a point. *)
Definition contains (r : Roi) (p : Coordinate) : bool :=
  le (get_begin r) p && lt p (get_end r).

(** Modelled from the spec: [Roi.contains] on a region. *)
Definition contains_roi (r other : Roi) : bool :=
  le (get_begin r) (get_begin other) && le (get_end other) (get_end r).

(** Modelled from the spec: [Roi.size], "product of shape". *)
Definition size (r : Roi) : Z := foldr Z.mul 1 (shape r).

(** Modelled from the spec: [Roi.__div__], the "divide" operation of the
    algebra, elementwise on offset and shape. *)
Definition div (r : Roi) (v : Coordinate) : Roi :=
  mkRoi (Coord.div (offset r) v) (Coord.div (shape r) v).

(** Modelled from the spec: [Roi.__sub__] of a coordinate, the region moved
    by its negation. *)
Definition sub_coord (r : Roi) (d : Coordinate) : Roi :=
  mkRoi (sub (offset r) d) (shape r).

(** A region of [n] dimensions. *)
Definition dims (n : nat) (r : Roi) : Prop :=
  length (offset r) = n ∧ length (shape r) = n.

End RoiAlg.

Import RoiAlg.

(** ** Exceptions, randomness and fuel *)

Module Py.

Inductive exn :=
  | RuntimeError | AssertionError | KeyError | ValueError | AttributeError
  | IndexError | ZeroDivisionError | NameError
  | Exception.

Inductive outcome (A : Type) :=
  | Ok (a : A)
  | Raise (e : exn)
  | OutOfFuel.
Arguments Ok {A} a.
Arguments Raise {A} e.
Arguments OutOfFuel {A}.

#[export] Instance outcome_ret : MRet outcome := λ A a, Ok a.
#[export] Instance outcome_bind : MBind outcome := λ A B f m,
  match m with
  | Ok a => f a
  | Raise e => Raise e
  | OutOfFuel => OutOfFuel
  end.

(** The random source: an arbitrary tape of integers and a read position. *)
Record Rng := mkRng { tape : nat → Z; cursor : nat }.

Definition M (A : Type) : Type := Rng → outcome A * Rng.

#[export] Instance M_ret : MRet M := λ A a g, (Ok a, g).

#[export] Instance M_bind : MBind M := λ A B f m g,
  match m g with
  | (Ok a, g') => f a g'
  | (Raise e, g') => (Raise e, g')
  | (OutOfFuel, g') => (OutOfFuel, g')
  end.

Definition raise {A} (e : exn) : M A := λ g, (Raise e, g).
Definition out_of_fuel {A} : M A := λ g, (OutOfFuel, g).

(** A computation that reads no randomness. *)
Definition lift {A} (o : outcome A) : M A := λ g, (o, g).

(** [random.randint(a, b)]: an integer of [[a, b]], [ValueError] on an empty
    range. *)
Definition randint (a b : Z) : M Z := λ g,
  if b <? a then (Raise ValueError, g)
  else (Ok (a + tape g (cursor g) `mod` (b - a + 1)),
        mkRng (tape g) (S (cursor g))).

(** [Coordinate(randint(int(b), int(e + adj)) for b, e in zip(begin, end))] *)
Fixpoint random_coordinate (adj : Z) (b e : Coordinate) : M Coordinate :=
  match b, e with
  | x :: b', y :: e' =>
      v ← randint x (y + adj);
      rest ← random_coordinate adj b' e';
      mret (v :: rest)
  | _, _ => mret []
  end.

(** [numpy.random.choice(l, size=1)[0]] *)
Definition choice {A} (l : list A) : M A :=
  i ← randint 0 (Z.of_nat (length l) - 1);
  match l !! Z.to_nat i with
  | Some x => mret x
  | None => raise ValueError
  end.

End Py.

Import Py.

(** ** Specs, requests and batches

    [ArraySpec], [PointsSpec], [ProviderSpec], [BatchRequest] and [Batch]
    are classes of the package that are not among the sources; they are
    records with the attributes the two nodes read and write. *)

Module Data.

Inductive Key :=
  | ArrayKey (name : string)
  | PointsKey (name : string).

(** An [ArraySpec] or a [PointsSpec]: "{roi: Roi|None, voxel_size}". *)
Record Spec := mkSpec { roi : option Roi; voxel_size : Coordinate }.

Definition set_roi (r : option Roi) (s : Spec) : Spec :=
  mkSpec r (voxel_size s).

(** A [ProviderSpec]; a [BatchRequest] is one too. *)
Record ProviderSpec := mkProviderSpec {
  array_specs : gmap string Spec;
  points_specs : gmap string Spec
}.
Abbreviation BatchRequest := ProviderSpec.

(** [identifier in spec] and [spec[identifier]] pick the dictionary by the
    kind of the key. *)
#[export] Instance provider_spec_lookup : Lookup Key Spec ProviderSpec :=
  λ k s,
    match k with
    | ArrayKey n => array_specs s !! n
    | PointsKey n => points_specs s !! n
    end.

(** [spec.items()]: the array specs, then the points specs. *)
Definition items (s : ProviderSpec) : list (Key * Spec) :=
  (prod_map ArrayKey id <$> map_to_list (array_specs s)) ++
  (prod_map PointsKey id <$> map_to_list (points_specs s)).

(** Modelled from the spec: [ProviderSpec.get_lcm_voxel_size], the "least
    common multiple of all requested voxel sizes", componentwise over the
    array keys given; a key the spec does not hold is a [KeyError]. *)
Fixpoint lcm_voxel_size_loop (specs : gmap string Spec) (keys : list string)
    (acc : option Coordinate) : outcome (option Coordinate) :=
  match keys with
  | [] => Ok acc
  | k :: keys' =>
      match specs !! k with
      | None => Raise KeyError
      | Some s =>
          lcm_voxel_size_loop specs keys'
            (Some match acc with
                  | None => voxel_size s
                  | Some a => zip_with Z.lcm a (voxel_size s)
                  end)
      end
  end.

Definition get_lcm_voxel_size (s : ProviderSpec) (keys : list string)
    : outcome (option Coordinate) :=
  lcm_voxel_size_loop (array_specs s) keys None.

(** A three-dimensional [numpy] array of integers, outermost axis first. *)
Abbreviation array3 := (list (list (list Z))).

Record Point := mkPoint { location : Coordinate }.

Record Array := mkArray { array_spec : Spec; array_data : array3 }.
Record Points := mkPoints { points_spec : Spec; points_data : gmap Z Point }.

Record Batch := mkBatch {
  arrays : gmap string Array;
  points : gmap string Points
}.

(** The upstream provider of a node: its spec, the value of
    [spec.get_total_roi()] (a method of the absent [ProviderSpec]), and what
    [request_batch] returns for a request of one points key or of one array
    key.  The provider is deterministic, as the docstring of
    [RandomLocation] requires of everything upstream. *)
Record Provider := mkProvider {
  provider_spec : ProviderSpec;
  total_roi : option Roi;
  request_points : string → Roi → gmap Z Point;
  request_array : string → Spec → array3
}.

End Data.

Import Data.

(** ** Summed-area tables

    [skimage.transform.integral_image] and [integrate], after the library's
    code, for three-dimensional arrays. *)

Module Integral.

(** [numpy.cumsum] of a one-dimensional array. *)
Fixpoint cumsum_from (acc : Z) (l : list Z) : list Z :=
  match l with
  | [] => []
  | x :: l' => (acc + x) :: cumsum_from (acc + x) l'
  end.
Definition cumsum (l : list Z) : list Z := cumsum_from 0 l.

(** Running sums of a list under an addition [f] of its elements. *)
Fixpoint scan_from {A} (f : A → A → A) (acc : A) (l : list A) : list A :=
  match l with
  | [] => []
  | x :: l' => f acc x :: scan_from f (f acc x) l'
  end.
Definition scan {A} (f : A → A → A) (l : list A) : list A :=
  match l with
  | [] => []
  | x :: l' => x :: scan_from f x l'
  end.

Definition add_rows (r1 r2 : list Z) : list Z := zip_with Z.add r1 r2.
Definition add_planes (p1 p2 : list (list Z)) : list (list Z) :=
  zip_with add_rows p1 p2.

Definition cumsum_axis0 (a : array3) : array3 := scan add_planes a.
Definition cumsum_axis1 (a : array3) : array3 := scan add_rows <$> a.
Definition cumsum_axis2 (a : array3) : array3 := fmap (M := list) cumsum <$> a.

(** [for i in range(image.ndim): S = S.cumsum(axis=i)] *)
Definition integral_image (image : array3) : array3 :=
  cumsum_axis2 (cumsum_axis1 (cumsum_axis0 image)).

(** [numpy.array(mask_data > 0, dtype=...)] *)
Definition binarize (a : array3) : array3 :=
  fmap (M := list) (fmap (M := list) (λ v : Z, if 0 <? v then 1 else 0)) <$> a.

(** [a.shape] and [a.size] *)
Definition shape3 (a : array3) : Coordinate :=
  [Z.of_nat (length a);
   Z.of_nat (length (default [] (head a)));
   Z.of_nat (length (default [] (head (default [] (head a)))))].
Definition data_size (a : array3) : Z := foldr Z.mul 1 (shape3 a).

(** [a[i]] along an axis of length [n]: a negative index counts from the
    end, an index outside [[-n, n)] is an [IndexError]. *)
Definition np_index {A} (l : list A) (i : Z) : outcome A :=
  let n := Z.of_nat (length l) in
  let j := if i <? 0 then i + n else i in
  if (j <? 0) || (n <=? j) then Raise IndexError
  else match l !! Z.to_nat j with
       | Some x => Ok x
       | None => Raise IndexError
       end.

(** [ii[tuple(corner)]] *)
Definition get3 (ii : array3) (corner : Coordinate) : outcome Z :=
  match corner with
  | [i; j; k] =>
      match np_index ii i with
      | Ok plane =>
          match np_index plane j with
          | Ok row => np_index row k
          | Raise e => Raise e
          | OutOfFuel => OutOfFuel
          end
      | Raise e => Raise e
      | OutOfFuel => OutOfFuel
      end
  | _ => Raise IndexError
  end.

(** "convert negative indices into equivalent positive indices" *)
Definition wrap_negative (shp idx : Coordinate) : Coordinate :=
  zip_with (λ n i, if i <? 0 then i + n else i) shp idx.

(** One term of the sum: [bool_mask] tells, per axis, whether the corner
    takes [start - 1] (and the term changes sign) or [end]; a corner with a
    negative [start - 1] is "bad" and counts as zero. *)
Definition corner_term (ii : array3) (start end_ : Coordinate)
    (bool_mask : list bool) : outcome Z :=
  let start1 := zip_with (λ (b : bool) s, if b then s - 1 else 0) bool_mask start in
  let bad := existsb (λ v, v <? 0) start1 in
  let corner :=
    zip_with Z.add
      (zip_with (λ (b : bool) e, if b then 0 else e) bool_mask end_) start1 in
  let sign := if Nat.even (length (filter (λ b, b = true) bool_mask)) then 1 else -1 in
  if bad then Ok 0
  else match get3 ii corner with
       | Ok v => Ok (sign * v)
       | Raise e => Raise e
       | OutOfFuel => OutOfFuel
       end.

(** The bit patterns [000] to [111] in the order of the library's loop. *)
Definition bit_perms : list (list bool) :=
  [ [false; false; false]; [false; false; true];
    [false; true; false];  [false; true; true];
    [true; false; false];  [true; false; true];
    [true; true; false];   [true; true; true] ].

Fixpoint sum_terms (ts : list (outcome Z)) (acc : Z) : outcome Z :=
  match ts with
  | [] => Ok acc
  | Ok v :: ts' => sum_terms ts' (acc + v)
  | Raise e :: _ => Raise e
  | OutOfFuel :: _ => OutOfFuel
  end.

(** [integrate(ii, [start], [end])[0]] *)
Definition integrate (ii : array3) (start end_ : Coordinate) : outcome Z :=
  let shp := shape3 ii in
  let start := wrap_negative shp start in
  let end_ := wrap_negative shp end_ in
  if negb (le start end_) then Raise IndexError
  else sum_terms (corner_term ii start end_ <$> bit_perms) 0.

(** What the table is for: sums over boxes of the array, written out as
    sums over the indices. *)

(** [f lo + f (lo + 1) + ... + f (lo + len - 1)] *)
Fixpoint sum_from (lo len : nat) (f : nat → Z) : Z :=
  match len with
  | O => 0
  | S len' => f lo + sum_from (S lo) len' f
  end.

(** [a[i, j, k]] *)
Definition at3 (a : array3) (i j k : nat) : Z :=
  nth k (nth j (nth i a []) []) 0.

(** The sum of [a] over the box [b <= index < e]. *)
Definition box_sum (a : array3) (b e : nat * nat * nat) : Z :=
  sum_from b.1.1 (e.1.1 - b.1.1) (λ i,
    sum_from b.1.2 (e.1.2 - b.1.2) (λ j,
      sum_from b.2 (e.2 - b.2) (λ k, at3 a i j k))).

(** The number of masked-in voxels (value above 0) of [mask_data] in the
    box [b <= index < e]. *)
Definition masked_in (mask_data : array3) (b e : nat * nat * nat) : Z :=
  sum_from b.1.1 (e.1.1 - b.1.1) (λ i,
    sum_from b.1.2 (e.1.2 - b.1.2) (λ j,
      sum_from b.2 (e.2 - b.2) (λ k,
        if 0 <? at3 mask_data i j k then 1 else 0))).

(** An array of shape [(n0, n1, n2)]. *)
Definition rect (n0 n1 n2 : nat) (a : array3) : Prop :=
  length a = n0 ∧
  Forall (λ plane, length plane = n1 ∧
                   Forall (λ row : list Z, length row = n2) plane) a.

(** [f 0 + ... + f (n - 1)], and the sum of [a] over the indices below
    [(x, y, z)]. *)
Definition sum_to (f : nat → Z) (n : nat) : Z := sum_from 0 n f.
Definition prefix3 (a : array3) (x y z : nat) : Z :=
  sum_to (λ k, sum_to (λ j, sum_to (λ i, at3 a i j k) x) y) z.

End Integral.

Import Integral.

(** ** Floats and numpy arrays

    What the two nodes use of Python floats and of [numpy], after the
    documented behaviour of the library. *)

Module F64.

Definition of_Z (z : Z) : spec_float := binary_normalize 53 1024 z 0 false.
Definition div (x y : spec_float) : spec_float := SFdiv 53 1024 x y.
Definition zero : spec_float := S754_zero false.
Definition one : spec_float := of_Z 1.

(** [x <= y] and [x < y]; both are [False] on a NaN. *)
Definition leb (x y : spec_float) : bool := SFleb x y.
Definition ltb (x y : spec_float) : bool := SFltb x y.

End F64.

Module Numpy.

Inductive int_dtype :=
  | uint8 | uint16 | uint32 | uint64 | int8 | int16 | int32 | int64.
Inductive float_dtype := float16 | float32 | float64.

(** Mantissa bits (the implicit one included) and the exponent of the
    infinities of a float type. *)
Definition prec (t : float_dtype) : Z :=
  match t with float16 => 11 | float32 => 24 | float64 => 53 end.
Definition emax (t : float_dtype) : Z :=
  match t with float16 => 16 | float32 => 128 | float64 => 1024 end.

(** An array with its dtype, flattened: the operations below are
    elementwise or reductions over all elements. *)
Inductive ndarray :=
  | IntArray (t : int_dtype) (values : list Z)
  | FloatArray (t : float_dtype) (values : list spec_float).

(** An integer, and a float of another type, rounded to the float type [t]. *)
Definition of_int (t : float_dtype) (z : Z) : spec_float :=
  binary_normalize (prec t) (emax t) z 0 false.
Definition round_to (t : float_dtype) (x : spec_float) : spec_float :=
  match x with
  | S754_finite s m e => binary_round (prec t) (emax t) s m e
  | _ => x
  end.

(** [a.astype(t)] for a float type [t]. *)
Definition astype (a : ndarray) (t : float_dtype) : ndarray :=
  FloatArray t
    match a with
    | IntArray _ vs => of_int t <$> vs
    | FloatArray _ vs => round_to t <$> vs
    end.

(** [numpy.min_scalar_type] of a Python float: the narrowest float type
    whose range holds the value, by the bounds the library tests (65000 for
    float16, 3.4e38 for float32); a value that is not finite, and zero, fit
    the narrowest type. *)
Definition min_float_type (x : spec_float) : float_dtype :=
  match x with
  | S754_finite _ _ _ =>
      if SFltb (F64.of_Z (-65000)) x && SFltb x (F64.of_Z 65000) then float16
      else if SFltb (F64.of_Z (-34 * 10 ^ 37)) x && SFltb x (F64.of_Z (34 * 10 ^ 37))
           then float32
           else float64
  | _ => float16
  end.

(** [numpy.promote_types] on float types: the wider of the two. *)
Definition promote_types (t u : float_dtype) : float_dtype :=
  match t, u with
  | float64, _ | _, float64 => float64
  | float32, _ | _, float32 => float32
  | float16, float16 => float16
  end.

(** The cast of an element of type [t] to the type [u] of a result; none
    when the type stays. *)
Definition cast_to (t u : float_dtype) (v : spec_float) : spec_float :=
  match t, u with
  | float16, float16 | float32, float32 | float64, float64 => v
  | _, _ => round_to u v
  end.

(** [a * factor] for a Python float [factor], with the value-based casting
    of [numpy] 1: the result of a float array has the wider of the type of
    the array and the narrowest type that holds the scalar, so the array
    keeps its type unless the scalar is out of its range; the operands are
    cast to that type. An integer array becomes float64. *)
Definition mul_scalar (a : ndarray) (factor : spec_float) : ndarray :=
  match a with
  | FloatArray t vs =>
      let u := promote_types t (min_float_type factor) in
      FloatArray u ((λ v, SFmul (prec u) (emax u) (cast_to t u v)
                                (round_to u factor)) <$> vs)
  | IntArray _ vs =>
      FloatArray float64 ((λ z, SFmul 53 1024 (of_int float64 z) factor) <$> vs)
  end.

(** [a.size] *)
Definition np_size (a : ndarray) : nat :=
  match a with
  | IntArray _ vs => length vs
  | FloatArray _ vs => length vs
  end.

Definition is_nan (x : spec_float) : bool :=
  match x with S754_nan => true | _ => false end.

(** [a.min()] and [a.max()]: a NaN wins, and an empty array is a
    [ValueError]. *)
Definition np_min (vs : list spec_float) : outcome spec_float :=
  match vs with
  | [] => Raise ValueError
  | v :: vs' =>
      Ok (foldl (λ a b, if is_nan a then a else if is_nan b then b
                        else if SFltb b a then b else a) v vs')
  end.
Definition np_max (vs : list spec_float) : outcome spec_float :=
  match vs with
  | [] => Raise ValueError
  | v :: vs' =>
      Ok (foldl (λ a b, if is_nan a then a else if is_nan b then b
                        else if SFltb a b then b else a) v vs')
  end.

End Numpy.

Import Numpy.

(** ** [gunpowder/nodes/random_location.py] *)

Module RandomLocation.

(** The attributes of a [RandomLocation] node.  [upstream] is
    [get_upstream_provider()] and [spec] the spec the node advertises, which
    [BatchFilter] (not among the sources) starts as a copy of the upstream
    spec. *)
Record Node := mkNode {
  min_masked : spec_float;
  mask : option string;
  mask_spec : option Spec;
  ensure_nonempty : option string;
  upstream : Provider;
  spec : ProviderSpec;
  upstream_spec : ProviderSpec;
  upstream_roi : option Roi;
  mask_integral_dtype : int_dtype;
  mask_integral : array3;
  random_shift : Coordinate
}.

(** [__init__], on a node chained to the provider [up]. *)
Definition init (min_masked : spec_float) (mask ensure_nonempty : option string)
    (up : Provider) : Node :=
  {| min_masked := min_masked; mask := mask; mask_spec := None;
     ensure_nonempty := ensure_nonempty; upstream := up;
     spec := provider_spec up;
     upstream_spec := mkProviderSpec ∅ ∅; upstream_roi := None;
     mask_integral_dtype := uint64; mask_integral := [];
     random_shift := [] |}.

(** [self.mask and self.min_masked > 0] *)
Definition mask_active (self : Node) : bool :=
  match mask self with
  | Some _ => F64.ltb F64.zero (min_masked self)
  | None => false
  end.

(** [self.updates(identifier, spec)] of [BatchFilter]: the entry of the
    advertised spec is replaced. *)
Definition updates (s : ProviderSpec) (identifier : Key) (sp : Spec)
    : ProviderSpec :=
  match identifier with
  | ArrayKey n => mkProviderSpec (<[n := sp]> (array_specs s)) (points_specs s)
  | PointsKey n => mkProviderSpec (array_specs s) (<[n := sp]> (points_specs s))
  end.

(** Lines 86-88: [for identifier, spec in self.spec.items(): ...] *)
Definition clear_rois (s : ProviderSpec) : ProviderSpec :=
  foldl (λ acc '(identifier, sp), updates acc identifier (set_roi None sp))
        s (items s).

(** Lines 73-78. *)
Definition choose_integral_dtype (data_size : Z) : int_dtype :=
  let mask_integral_dtype := uint64 in
  let mask_integral_dtype :=
    if data_size <? 2 ^ 32 then uint32 else mask_integral_dtype in
  let mask_integral_dtype :=
    if data_size <? 2 ^ 16 then uint16 else mask_integral_dtype in
  mask_integral_dtype.

Definition setup (self : Node) : outcome Node :=
  let upstream_spec := provider_spec (upstream self) in
  let upstream_roi := total_roi (upstream self) in
  match upstream_roi with
  | None => Raise RuntimeError
  | Some _ =>
      '(mask_spec, dtype, integral) ←
        match mask self with
        | Some m =>
            if F64.ltb F64.zero (min_masked self) then
              match upstream_spec !! ArrayKey m with
              | None => Raise AssertionError
              | Some ms =>
                  let mask_data := request_array (upstream self) m ms in
                  Ok (Some ms, choose_integral_dtype (data_size mask_data),
                      integral_image (binarize mask_data))
              end
            else Ok (mask_spec self, mask_integral_dtype self, mask_integral self)
        | None => Ok (mask_spec self, mask_integral_dtype self, mask_integral self)
        end;
      Ok {| min_masked := min_masked self; mask := mask self;
            mask_spec := mask_spec;
            ensure_nonempty := ensure_nonempty self;
            upstream := upstream self;
            spec := clear_rois (spec self);
            upstream_spec := upstream_spec; upstream_roi := upstream_roi;
            mask_integral_dtype := dtype; mask_integral := integral;
            random_shift := random_shift self |}
  end.

(** Line 115. *)
Definition type_shift_roi (provided_roi request_roi : Roi) : Roi :=
  grow (shift provided_roi (neg (get_begin request_roi)))
       [0; 0; 0] (neg (get_shape request_roi)).

(** Lines 107-120: the loop over [request.items()], from the value
    [shift_roi] has when an iteration starts. *)
Fixpoint shift_roi_loop (upstream_spec : ProviderSpec)
    (its : list (Key * Spec)) (shift_roi : option Roi)
    : outcome (option Roi) :=
  match its with
  | [] => Ok shift_roi
  | (identifier, spec) :: its' =>
      match upstream_spec !! identifier with
      | None => Raise Exception
      | Some provided =>
          match roi provided, roi spec with
          | Some provided_roi, Some request_roi =>
              let type_shift_roi := type_shift_roi provided_roi request_roi in
              shift_roi_loop upstream_spec its'
                (Some match shift_roi with
                      | None => type_shift_roi
                      | Some shift_roi => intersect shift_roi type_shift_roi
                      end)
          | _, _ => Raise AttributeError
          end
      end
  end.

(** The region the spec describes for step 1: the per-key regions of the
    requested keys, intersected from left to right. *)
Definition intersect_all (regions : list Roi) : option Roi :=
  foldl (λ acc t, Some match acc with
                       | None => t
                       | Some s => intersect s t
                       end) None regions.

(** The per-key region of one item of the request, when the key is provided
    upstream and both ROIs are set. *)
Definition key_region (upstream_spec : ProviderSpec) (item : Key * Spec)
    : option Roi :=
  provided ← upstream_spec !! item.1;
  provided_roi ← roi provided;
  request_roi ← roi item.2;
  Some (type_shift_roi provided_roi request_roi).

(** Lines 97-104. *)
Definition request_lcm_voxel_size (self : Node) (request : BatchRequest)
    : outcome (option Coordinate) :=
  let keys := (map_to_list (array_specs request)).*1 in
  if bool_decide (keys = []) then Ok None
  else get_lcm_voxel_size (spec self) keys.

Definition max_trials : Z := 100000.

(** What the search for a local shift leaves behind: [random_shift],
    [good_location_found_for_points] and [trial_nr]. *)
Record Search := mkSearch {
  search_shift : Coordinate;
  search_found : bool;
  search_trials : Z
}.

(** Lines 166-180: [while not good_local_shift], entered with the values
    [trial_nr] and [random_shift] have at that point.  The loop ends by
    itself after [max_trials] trials; [fuel] only makes the recursion
    structural. *)
Fixpoint local_shift_loop (fuel : nat) (max_trials trial_nr : Z)
    (shift_roi local_shift_roi : Roi)
    (initial_random_shift focused_points_offset focused_points_shape
     chosen_point_location random_shift : Coordinate) : M Search :=
  match fuel with
  | O => out_of_fuel
  | S fuel' =>
      let trial_nr := trial_nr + 1 in
      local_shift ← random_coordinate 0 (get_begin local_shift_roi)
                                        (get_end local_shift_roi);
      let good := contains shift_roi (add initial_random_shift local_shift) in
      let random_shift :=
        if good then add initial_random_shift local_shift else random_shift in
      if good && negb (contains (mkRoi (add random_shift focused_points_offset)
                                       focused_points_shape)
                                chosen_point_location)
      then raise AssertionError
      else if trial_nr =? max_trials then
        mret (mkSearch random_shift false trial_nr)
      else if good then mret (mkSearch random_shift true trial_nr)
      else local_shift_loop fuel' max_trials trial_nr shift_roi local_shift_roi
             initial_random_shift focused_points_offset focused_points_shape
             chosen_point_location random_shift
  end.

(** [request.points_spec] (line 147). A [BatchRequest] holds its specs in
    the attributes [array_specs] and [points_specs], which lines 97, 219,
    231 and 235 read; it has no attribute [points_spec], and reading it
    raises an [AttributeError]. *)
Definition points_spec_attribute (request : BatchRequest)
    : outcome (gmap string Spec) :=
  Raise AttributeError.

(** The name [PointsSpec] (line 153), which the module neither imports nor
    defines (lines 1-10): evaluating it raises a [NameError]. *)
Definition PointsSpec_name : outcome unit := Raise NameError.

(** Lines 145-186: the points constraint on the shift just drawn, giving
    the shift to go on with and [good_location_found_for_points]. *)
Definition ensure_point (self : Node) (request : BatchRequest)
    (shift_roi : Roi) (initial_random_shift : Coordinate)
    : M (Coordinate * bool) :=
  match ensure_nonempty self with
  | None => mret (initial_random_shift, true)
  | Some key =>
      points_spec ← lift (points_spec_attribute request);
      match points_spec !! key with
      | None => raise KeyError
      | Some ps =>
          match roi ps with
          | None => raise AttributeError
          | Some focused_points_roi =>
              let focused_points_offset := get_offset focused_points_roi in
              let focused_points_shape := get_shape focused_points_roi in
              _ ← lift PointsSpec_name;
              let batch_of_points :=
                request_points (upstream self) key
                  (shift focused_points_roi initial_random_shift) in
              let points_in_batch := map_to_list batch_of_points in
              if bool_decide (points_in_batch = []) then
                mret (initial_random_shift, false)
              else
                chosen ← choice points_in_batch;
                let chosen_point_location := location chosen.2 in
                let distance_focused_roi_to_chosen_point :=
                  sub chosen_point_location
                      (add initial_random_shift focused_points_offset) in
                let local_shift_roi :=
                  mkRoi (sub distance_focused_roi_to_chosen_point
                             (sub focused_points_shape [2; 2; 2]))
                        (sub focused_points_shape [2; 2; 2]) in
                r ← local_shift_loop (Z.to_nat max_trials) max_trials 0
                       shift_roi local_shift_roi initial_random_shift
                       focused_points_offset focused_points_shape
                       chosen_point_location initial_random_shift;
                mret (search_shift r, search_found r)
          end
      end
  end.

(** Lines 189-196: [request_mask_roi_in_array] at a shift, the requested
    region of the mask in the coordinates of the mask array. *)
Definition mask_roi_in_array (self : Node) (request : BatchRequest)
    (random_shift : Coordinate) : outcome Roi :=
  match mask self with
  | None => Raise AttributeError
  | Some m =>
      match array_specs request !! m with
      | None => Raise KeyError
      | Some rs =>
          match roi rs, spec self !! ArrayKey m, mask_spec self ≫= roi with
          | Some request_mask_roi, Some own, Some mask_roi =>
              let request_mask_roi := shift request_mask_roi random_shift in
              let mask_voxel_size := voxel_size own in
              let request_mask_roi_in_array :=
                div request_mask_roi mask_voxel_size in
              Ok (sub_coord request_mask_roi_in_array
                            (Coord.div (get_offset mask_roi) mask_voxel_size))
          | None, _, _ => Raise AttributeError
          | _, None, _ => Raise KeyError
          | _, _, None => Raise AttributeError
          end
      end
  end.

(** Lines 198-205: [mask_ratio] at a shift.  The sum of the corner terms is
    taken exactly; the library adds them up in binary64, which is exact
    below 2^53. *)
Definition mask_ratio (self : Node) (request : BatchRequest)
    (random_shift : Coordinate) : outcome spec_float :=
  request_mask_roi_in_array ← mask_roi_in_array self request random_shift;
  num_masked_in ←
    integrate (mask_integral self)
      (get_begin request_mask_roi_in_array)
      (sub (get_end request_mask_roi_in_array) [1; 1; 1]);
  if size request_mask_roi_in_array =? 0 then Raise ZeroDivisionError
  else Ok (F64.div (F64.of_Z num_masked_in)
                   (F64.of_Z (size request_mask_roi_in_array))).

(** Lines 188-215: [good_location_found_for_mask] at a shift. *)
Definition check_mask (self : Node) (request : BatchRequest)
    (random_shift : Coordinate) : outcome bool :=
  if mask_active self then
    mask_ratio ← mask_ratio self request random_shift;
    Ok (F64.leb (min_masked self) mask_ratio)
  else Ok true.

(** Lines 136-140: the random shift drawn at the head of an iteration. *)
Definition draw_shift (lcm_shift_roi : Roi) (lcm_voxel_size : option Coordinate)
    : M Coordinate :=
  random_shift ← random_coordinate (-1) (get_begin lcm_shift_roi)
                                        (get_end lcm_shift_roi);
  mret match lcm_voxel_size with
       | Some v => mul random_shift v
       | None => random_shift
       end.

(** One pass through the body of the [while] of line 134: the shift it ends
    with and the two flags. *)
Definition sample_once (self : Node) (request : BatchRequest)
    (shift_roi lcm_shift_roi : Roi) (lcm_voxel_size : option Coordinate)
    : M (Coordinate * bool * bool) :=
  initial_random_shift ← draw_shift lcm_shift_roi lcm_voxel_size;
  '(random_shift, good_location_found_for_points) ←
    ensure_point self request shift_roi initial_random_shift;
  good_location_found_for_mask ← lift (check_mask self request random_shift);
  mret (random_shift, good_location_found_for_mask,
        good_location_found_for_points).

(** Lines 133-215: [while not good_location_found_for_mask or not
    good_location_found_for_points]. *)
Fixpoint sample_loop (fuel : nat) (self : Node) (request : BatchRequest)
    (shift_roi lcm_shift_roi : Roi) (lcm_voxel_size : option Coordinate)
    : M Coordinate :=
  match fuel with
  | O => out_of_fuel
  | S fuel' =>
      '(random_shift, for_mask, for_points) ←
        sample_once self request shift_roi lcm_shift_roi lcm_voxel_size;
      if negb for_mask || negb for_points then
        sample_loop fuel' self request shift_roi lcm_shift_roi lcm_voxel_size
      else mret random_shift
  end.

(** Lines 220-224, for one of the two dictionaries of the request. *)
Fixpoint shift_specs_loop (upstream_roi : option Roi)
    (random_shift : Coordinate) (its : list (string * Spec))
    (specs_type : gmap string Spec) : outcome (gmap string Spec) :=
  match its with
  | [] => Ok specs_type
  | (key, spec) :: its' =>
      match roi spec, upstream_roi with
      | Some r, Some up =>
          let roi := shift r random_shift in
          if contains_roi up roi then
            shift_specs_loop upstream_roi random_shift its'
              (<[key := set_roi (Some roi) spec]> specs_type)
          else Raise AssertionError
      | _, _ => Raise AttributeError
      end
  end.

Definition set_random_shift (self : Node) (s : Coordinate) : Node :=
  {| min_masked := min_masked self; mask := mask self;
     mask_spec := mask_spec self; ensure_nonempty := ensure_nonempty self;
     upstream := upstream self; spec := spec self;
     upstream_spec := upstream_spec self; upstream_roi := upstream_roi self;
     mask_integral_dtype := mask_integral_dtype self;
     mask_integral := mask_integral self; random_shift := s |}.

(** Lines 92-131: the region of feasible shifts and its quantised form. *)
Definition shift_regions (self : Node) (request : BatchRequest)
    : outcome (Roi * Roi * option Coordinate) :=
  lcm_voxel_size ← request_lcm_voxel_size self request;
  shift_roi ← shift_roi_loop (upstream_spec self) (items request) None;
  match shift_roi with
  | None => Raise AssertionError
  | Some shift_roi =>
      if 0 <? size shift_roi then
        Ok (shift_roi,
            match lcm_voxel_size with
            | Some v => div shift_roi v
            | None => shift_roi
            end,
            lcm_voxel_size)
      else Raise AssertionError
  end.

(** [prepare]: the node with [random_shift] recorded and the request with
    its ROIs shifted. *)
Definition prepare (fuel : nat) (self : Node) (request : BatchRequest)
    : M (Node * BatchRequest) :=
  '(shift_roi, lcm_shift_roi, lcm_voxel_size) ←
    lift (shift_regions self request);
  random_shift ←
    sample_loop fuel self request shift_roi lcm_shift_roi lcm_voxel_size;
  array_specs' ←
    lift (shift_specs_loop (upstream_roi self) random_shift
            (map_to_list (array_specs request)) (array_specs request));
  points_specs' ←
    lift (shift_specs_loop (upstream_roi self) random_shift
            (map_to_list (points_specs request)) (points_specs request));
  mret (set_random_shift self random_shift,
        mkProviderSpec array_specs' points_specs').

(** A loop [for key, spec in d.items(): target[key] = f(spec, target[key])],
    a [KeyError] when [target] lacks a key. *)
Fixpoint update_each {A} (f : Spec → A → A) (its : list (string * Spec))
    (target : gmap string A) : outcome (gmap string A) :=
  match its with
  | [] => Ok target
  | (key, spec) :: its' =>
      match target !! key with
      | None => Raise KeyError
      | Some a => update_each f its' (<[key := f spec a]> target)
      end
  end.

Definition reset_array_roi (spec : Spec) (a : Array) : Array :=
  mkArray (set_roi (roi spec) (array_spec a)) (array_data a).

Definition reset_points_roi (spec : Spec) (p : Points) : Points :=
  mkPoints (set_roi (roi spec) (points_spec p)) (points_data p).

(** Lines 236-237: every location of a point set moved by [-random_shift]. *)
Definition shift_points (random_shift : Coordinate) (_ : Spec) (p : Points)
    : Points :=
  mkPoints (points_spec p)
           ((λ pt, mkPoint (sub (location pt) random_shift)) <$> points_data p).

Definition process (self : Node) (batch : Batch) (request : BatchRequest)
    : outcome Batch :=
  arrays' ← update_each reset_array_roi (map_to_list (array_specs request))
                        (arrays batch);
  points' ← update_each reset_points_roi (map_to_list (points_specs request))
                        (points batch);
  points'' ← update_each (shift_points (random_shift self))
                         (map_to_list (points_specs request)) points';
  Ok (mkBatch arrays' points'').

End RandomLocation.

(** ** [gunpowder/nodes/normalize.py] *)

Module Normalize.

(** The attributes of a [Normalize] node; [dtype] ranges over the float
    types, the node being there to produce "floats between 0 and 1". *)
Record Node := mkNode {
  array : string;
  factor : option spec_float;
  dtype : float_dtype
}.

(** [__init__] with its defaults. *)
Definition init (array : string) : Node :=
  {| array := array; factor := None; dtype := float32 |}.

(** Lines 29-39: the factor chosen from the dtype of the data. *)
Definition automatic_factor (data : ndarray) : outcome spec_float :=
  match data with
  | IntArray uint8 _ => Ok (F64.div (F64.of_Z 1) (F64.of_Z 255))
  | FloatArray float32 vs =>
      lo ← np_min vs;
      if SFleb F64.zero lo then
        hi ← np_max vs;
        if SFleb hi (of_int float32 1) then Ok (F64.of_Z 1)
        else Raise AssertionError
      else Raise AssertionError
  | _ => Raise RuntimeError
  end.

(** [process], on the [arrays] of the batch (name to data). *)
Definition process (self : Node) (batch : gmap string ndarray)
    : outcome (gmap string ndarray) :=
  match batch !! array self with
  | None => Raise KeyError
  | Some data =>
      factor ← match factor self with
               | Some f => Ok f
               | None => automatic_factor data
               end;
      Ok (<[array self := mul_scalar (astype data (dtype self)) factor]> batch)
  end.

End Normalize.

(** ** Concrete pipelines

    The scenario of the spec: an upstream array [raw] bounded at offset
    [(0,0,0)], shape [(20,20,20)], and a request of offset [(0,0,0)], shape
    [(10,10,10)]. *)

Module Scenario.

Definition cube (o s : Z) : Roi := mkRoi [o; o; o] [s; s; s].

Definition bounded_upstream (voxel : Z) : Provider :=
  {| provider_spec :=
       mkProviderSpec {[ "raw" := mkSpec (Some (cube 0 20)) [voxel; voxel; voxel] ]} ∅;
     total_roi := Some (cube 0 20);
     request_points := λ _ _, ∅;
     request_array := λ _ _, [] |}.

Definition raw_request (shape : Z) : BatchRequest :=
  mkProviderSpec {[ "raw" := mkSpec (Some (cube 0 shape)) [1; 1; 1] ]} ∅.

(** A node without constraints, as [setup] leaves it. *)
Definition plain_node (voxel : Z) : RandomLocation.Node :=
  match RandomLocation.setup
          (RandomLocation.init F64.zero None None (bounded_upstream voxel)) with
  | Ok node => node
  | _ => RandomLocation.init F64.zero None None (bounded_upstream voxel)
  end.

(** A node asked for a mask ratio of one half on a mask [mask] that the
    upstream provider does not have. *)
Definition masked_node : RandomLocation.Node :=
  RandomLocation.init (F64.div (F64.of_Z 1) (F64.of_Z 2)) (Some "mask") None
                      (bounded_upstream 1).

(** A request for [raw] and for a point set [pts] nobody provides. *)
Definition raw_and_points_request : BatchRequest :=
  mkProviderSpec {[ "raw" := mkSpec (Some (cube 0 10)) [1; 1; 1] ]}
                 {[ "pts" := mkSpec (Some (cube 0 10)) [] ]}.

(** An upstream with the array [raw] at voxel size 2 and a point set [pts]
    holding one point, number 1 at [(5,5,5)]; a request names the points of
    its region. *)
Definition pointed_upstream : Provider :=
  {| provider_spec :=
       mkProviderSpec {[ "raw" := mkSpec (Some (cube 0 20)) [2; 2; 2] ]}
                      {[ "pts" := mkSpec (Some (cube 0 20)) [] ]};
     total_roi := Some (cube 0 20);
     request_points := λ _ r,
       if contains r [5; 5; 5] then {[ 1 := mkPoint [5; 5; 5] ]} else ∅;
     request_array := λ _ _, [] |}.

(** The node with [ensure_nonempty] set to [pts], as [setup] leaves it. *)
Definition pointed_node : RandomLocation.Node :=
  match RandomLocation.setup
          (RandomLocation.init F64.zero None (Some "pts") pointed_upstream) with
  | Ok node => node
  | _ => RandomLocation.init F64.zero None (Some "pts") pointed_upstream
  end.

(** A mask of shape [(4,4,4)] whose first two planes are masked in. *)
Definition half_mask : array3 :=
  replicate 2 (replicate 4 (replicate 4 1)) ++
  replicate 2 (replicate 4 (replicate 4 0)).

Definition mask_upstream : Provider :=
  {| provider_spec :=
       mkProviderSpec {[ "mask" := mkSpec (Some (cube 0 4)) [1; 1; 1] ]} ∅;
     total_roi := Some (cube 0 4);
     request_points := λ _ _, ∅;
     request_array := λ _ _, half_mask |}.

(** A node that wants every voxel of the requested region masked in, as
    [setup] leaves it. *)
Definition fully_masked_node : RandomLocation.Node :=
  match RandomLocation.setup
          (RandomLocation.init F64.one (Some "mask") None mask_upstream) with
  | Ok node => node
  | _ => RandomLocation.init F64.one (Some "mask") None mask_upstream
  end.

Definition mask_request : BatchRequest :=
  mkProviderSpec {[ "mask" := mkSpec (Some (cube 0 2)) [1; 1; 1] ]} ∅.

(** A random source whose first three draws are 1 and all later ones 0. *)
Definition ones_then_zeros : Rng :=
  mkRng (λ n, if (n <? 3)%nat then 1 else 0) 0.

(** The batch the pointed upstream returns for the request moved by
    [(1,1,1)]. *)
Definition shifted_batch : Batch :=
  {| arrays := {[ "raw" := mkArray (mkSpec (Some (cube 1 10)) [2; 2; 2]) [] ]};
     points := {[ "pts" := mkPoints (mkSpec (Some (cube 1 10)) [])
                                    {[ 1 := mkPoint [5; 5; 5] ]} ]} |}.

End Scenario.

(** Further pipelines, for the edge cases of [prepare]. *)

Module MoreScenarios.

Import Scenario.

(** An upstream with an array [raw] beside the half mask, and the node that
    wants every voxel masked in, as [setup] leaves it. *)
Definition raw_and_mask_upstream : Provider :=
  {| provider_spec :=
       mkProviderSpec {[ "raw" := mkSpec (Some (cube 0 4)) [1; 1; 1];
                         "mask" := mkSpec (Some (cube 0 4)) [1; 1; 1] ]} ∅;
     total_roi := Some (cube 0 4);
     request_points := λ _ _, ∅;
     request_array := λ _ _, half_mask |}.

Definition raw_masked_node : RandomLocation.Node :=
  match RandomLocation.setup
          (RandomLocation.init F64.one (Some "mask") None raw_and_mask_upstream) with
  | Ok node => node
  | _ => RandomLocation.init F64.one (Some "mask") None raw_and_mask_upstream
  end.

End MoreScenarios.

(** * Properties *)

(** ** Coordinates and regions *)

Section CoordFacts.

Lemma all2_spec f a b :
  all2 f a b = true ↔
  ∀ i x y, a !! i = Some x → b !! i = Some y → f x y = true.
Proof.
  revert b. induction a as [|x a IH]; intros [|y b]; simpl.
  - split; [intros _ i ? ? H; by destruct i|done].
  - split; [intros _ i ? ? H; by destruct i|done].
  - split; [intros _ i ? ? _ H; by destruct i|done].
  - rewrite andb_true_iff, IH. split.
    + intros [Hxy Hr] [|i] x' y' Hx Hy; simpl in *.
      * by simplify_eq.
      * eauto.
    + intros H. split.
      * by apply (H 0%nat).
      * intros i x' y' Hx Hy. by apply (H (S i)).
Qed.

Lemma le_spec a b :
  le a b = true ↔ ∀ i x y, a !! i = Some x → b !! i = Some y → x ≤ y.
Proof.
  unfold le. rewrite all2_spec.
  split; intros H i x y Hx Hy; specialize (H i x y Hx Hy); lia.
Qed.

Lemma lt_spec a b :
  lt a b = true ↔ ∀ i x y, a !! i = Some x → b !! i = Some y → x < y.
Proof.
  unfold lt. rewrite all2_spec.
  split; intros H i x y Hx Hy; specialize (H i x y Hx Hy); lia.
Qed.

Lemma lookup_add a b i :
  add a b !! i = x ← a !! i; y ← b !! i; Some (x + y).
Proof. apply lookup_zip_with. Qed.

Lemma lookup_sub a b i :
  sub a b !! i = x ← a !! i; y ← b !! i; Some (x - y).
Proof. apply lookup_zip_with. Qed.

Lemma lookup_mul a b i :
  mul a b !! i = x ← a !! i; y ← b !! i; Some (x * y).
Proof. apply lookup_zip_with. Qed.

Lemma lookup_neg a i : neg a !! i = Z.opp <$> a !! i.
Proof. apply list_lookup_fmap. Qed.

(** A point lies in a region when it does so along every axis on which
    the point and the region are both defined. *)
Lemma contains_spec r p :
  contains r p = true ↔
  (∀ i o x, offset r !! i = Some o → p !! i = Some x → o ≤ x) ∧
  (∀ i o s x, offset r !! i = Some o → shape r !! i = Some s →
              p !! i = Some x → x < o + s).
Proof.
  unfold contains, get_begin, get_end. rewrite andb_true_iff, le_spec, lt_spec.
  split; intros [H1 H2]; split; try done.
  - intros i o s x Ho Hs Hx. apply (H2 i); [done|].
    rewrite lookup_add, Ho, Hs. done.
  - intros i x y Hx Hy. rewrite lookup_add in Hy.
    destruct (offset r !! i) as [o|] eqn:Ho; [|done].
    destruct (shape r !! i) as [s|] eqn:Hs; [|done].
    simpl in Hy. simplify_eq. eauto.
Qed.

Lemma lookup_div a b i :
  Coord.div a b !! i = x ← a !! i; y ← b !! i; Some (x `div` y).
Proof. apply lookup_zip_with. Qed.

End CoordFacts.

Section RoiFacts.

Lemma lookup_same_length {A B} (l : list A) (k : list B) i x :
  length l = length k → l !! i = Some x → ∃ y, k !! i = Some y.
Proof.
  intros Hlen Hl. apply lookup_lt_Some in Hl.
  apply lookup_lt_is_Some_2. lia.
Qed.

Lemma lookup_intersect_offset a b i :
  offset (intersect a b) !! i =
  x ← offset a !! i; y ← offset b !! i; Some (x `max` y).
Proof. apply lookup_zip_with. Qed.

Lemma lookup_intersect_shape a b i oa sa ob sb :
  offset a !! i = Some oa → shape a !! i = Some sa →
  offset b !! i = Some ob → shape b !! i = Some sb →
  shape (intersect a b) !! i =
  Some ((oa + sa) `min` (ob + sb) - oa `max` ob).
Proof.
  intros Hoa Hsa Hob Hsb. unfold intersect, get_begin, get_end. simpl.
  rewrite lookup_sub, !lookup_zip_with, !lookup_add, Hoa, Hsa, Hob, Hsb.
  done.
Qed.

Lemma intersect_dims n a b : dims n a → dims n b → dims n (intersect a b).
Proof.
  intros [Ha1 Ha2] [Hb1 Hb2]. unfold dims, intersect, get_begin, get_end, sub, add.
  simpl. rewrite !length_zip_with. lia.
Qed.

(** The spec's law of [intersect]: a point lies in the intersection exactly
    when it lies in both regions. *)
Lemma contains_intersect n a b p :
  dims n a → dims n b → length p = n →
  contains (intersect a b) p = true ↔
  contains a p = true ∧ contains b p = true.
Proof.
  intros [Ha1 Ha2] [Hb1 Hb2] Hp. rewrite !contains_spec. split.
  - intros [Hlo Hhi]. repeat split.
    + intros i o x Ho Hx.
      destruct (lookup_same_length (offset a) (offset b) i o) as [ob Hob];
        [lia|done|].
      specialize (Hlo i (o `max` ob) x).
      rewrite lookup_intersect_offset, Ho, Hob in Hlo.
      specialize (Hlo eq_refl Hx). lia.
    + intros i o s x Ho Hs Hx.
      destruct (lookup_same_length (offset a) (offset b) i o) as [ob Hob];
        [lia|done|].
      destruct (lookup_same_length (offset a) (shape b) i o) as [sb Hsb];
        [lia|done|].
      specialize (Hhi i (o `max` ob) ((o + s) `min` (ob + sb) - o `max` ob) x).
      rewrite lookup_intersect_offset, Ho, Hob in Hhi.
      rewrite (lookup_intersect_shape a b i o s ob sb) in Hhi by done.
      specialize (Hhi eq_refl eq_refl Hx). lia.
    + intros i o x Ho Hx.
      destruct (lookup_same_length (offset b) (offset a) i o) as [oa Hoa];
        [lia|done|].
      specialize (Hlo i (oa `max` o) x).
      rewrite lookup_intersect_offset, Ho, Hoa in Hlo.
      specialize (Hlo eq_refl Hx). lia.
    + intros i o s x Ho Hs Hx.
      destruct (lookup_same_length (offset b) (offset a) i o) as [oa Hoa];
        [lia|done|].
      destruct (lookup_same_length (offset b) (shape a) i o) as [sa Hsa];
        [lia|done|].
      specialize (Hhi i (oa `max` o) ((oa + sa) `min` (o + s) - oa `max` o) x).
      rewrite lookup_intersect_offset, Ho, Hoa in Hhi.
      rewrite (lookup_intersect_shape a b i oa sa o s) in Hhi by done.
      specialize (Hhi eq_refl eq_refl Hx). lia.
  - intros [[Ha Ha'] [Hb Hb']]. split.
    + intros i o x Ho Hx. rewrite lookup_intersect_offset in Ho.
      destruct (offset a !! i) as [oa|] eqn:Hoa; [|done].
      destruct (offset b !! i) as [ob|] eqn:Hob; [|done].
      simpl in Ho. simplify_eq.
      specialize (Ha i oa x Hoa Hx). specialize (Hb i ob x Hob Hx). lia.
    + intros i o s x Ho Hs Hx. rewrite lookup_intersect_offset in Ho.
      destruct (offset a !! i) as [oa|] eqn:Hoa; [|done].
      destruct (offset b !! i) as [ob|] eqn:Hob; [|done].
      simpl in Ho. simplify_eq.
      destruct (lookup_same_length (offset a) (shape a) i oa) as [sa Hsa];
        [lia|done|].
      destruct (lookup_same_length (offset b) (shape b) i ob) as [sb Hsb];
        [lia|done|].
      rewrite (lookup_intersect_shape a b i oa sa ob sb) in Hs by done.
      simplify_eq.
      specialize (Ha' i oa sa x Hoa Hsa Hx).
      specialize (Hb' i ob sb x Hob Hsb Hx). lia.
Qed.

End RoiFacts.

(** ** The monad *)

Section MonadFacts.

Lemma bind_lift {A B} (o : outcome A) (f : A → M B) g :
  (lift o ≫= f) g =
  match o with
  | Ok a => f a g
  | Raise e => (Raise e, g)
  | OutOfFuel => (OutOfFuel, g)
  end.
Proof. unfold mbind, M_bind, lift. by destruct o. Qed.

Lemma bind_run {A B} (m : M A) (f : A → M B) g :
  (m ≫= f) g =
  match m g with
  | (Ok a, g') => f a g'
  | (Raise e, g') => (Raise e, g')
  | (OutOfFuel, g') => (OutOfFuel, g')
  end.
Proof. done. Qed.

Lemma bind_Ok_inv {A B} (m : M A) (f : A → M B) g b g' :
  (m ≫= f) g = (Ok b, g') →
  ∃ a g1, m g = (Ok a, g1) ∧ f a g1 = (Ok b, g').
Proof.
  rewrite bind_run. destruct (m g) as [[a| |] g1]; [eauto|done..].
Qed.

Lemma outcome_bind_Ok_inv {A B} (o : outcome A) (f : A → outcome B) b :
  o ≫= f = Ok b → ∃ a, o = Ok a ∧ f a = Ok b.
Proof. destruct o; [eauto|done..]. Qed.

Lemma lift_Ok_inv {A} (o : outcome A) g a g' :
  lift o g = (Ok a, g') → o = Ok a ∧ g' = g.
Proof. unfold lift. by intros [= -> ->]. Qed.

(** [randint] stays within its bounds. *)
Lemma randint_range a b g v g' :
  randint a b g = (Ok v, g') → a ≤ v ≤ b.
Proof.
  unfold randint. destruct (Z.ltb_spec b a); [done|].
  intros [= <- _]. pose proof (Z.mod_pos_bound (tape g (cursor g)) (b - a + 1)).
  lia.
Qed.

Lemma randint_total a b g :
  a ≤ b → ∃ v, randint a b g = (Ok v, mkRng (tape g) (S (cursor g))).
Proof.
  intros H. unfold randint. destruct (Z.ltb_spec b a); [lia|eauto].
Qed.

(** A coordinate drawn between [b] and [e + adj] lies there, axis by axis. *)
Lemma random_coordinate_range adj b e g c g' :
  random_coordinate adj b e g = (Ok c, g') →
  length c = min (length b) (length e) ∧
  ∀ i x y v, b !! i = Some x → e !! i = Some y → c !! i = Some v →
             x ≤ v ≤ y + adj.
Proof.
  revert e g c g'. induction b as [|x b IH]; intros [|y e] g c g'; simpl;
    try (intros [= <- _]; split; [done|by intros []]).
  intros H. apply bind_Ok_inv in H as (v & g1 & Hv & H).
  apply bind_Ok_inv in H as (rest & g2 & Hrest & H).
  injection H as <- <-. apply IH in Hrest as [Hlen Hrest].
  apply randint_range in Hv. split; [simpl; lia|].
  intros [|i] x' y' v' Hx Hy Hc; simpl in *; simplify_eq; eauto.
Qed.

End MonadFacts.

(** ** [RandomLocation.prepare]: the region of feasible shifts *)

Section FeasibleRegion.

Import RandomLocation.

Lemma shift_roi_loop_regions us its regions acc :
  Forall2 (λ item t, key_region us item = Some t) its regions →
  shift_roi_loop us its acc =
  Ok (foldl (λ acc t, Some match acc with
                           | None => t
                           | Some s => intersect s t
                           end) acc regions).
Proof.
  intros H. revert acc. induction H as [|[k sp] t its regions Ht _ IH];
    intros acc; simpl; [done|].
  unfold key_region in Ht. simpl in Ht.
  destruct (us !! k) as [provided|]; [|done]. simpl in Ht.
  destruct (roi provided) as [p|]; [|done]. simpl in Ht.
  destruct (roi sp) as [r|]; [|done]. simpl in Ht. simplify_eq.
  apply IH.
Qed.

Lemma contains_intersect_from n regions a r s :
  Forall (dims n) regions → dims n a → length s = n →
  foldl (λ acc t, Some match acc with
                       | None => t
                       | Some s => intersect s t
                       end) (Some a) regions = Some r →
  contains r s = true ↔
  contains a s = true ∧ Forall (λ t, contains t s = true) regions.
Proof.
  intros Hd. revert a. induction Hd as [|t regions Ht _ IH];
    intros a Ha Hs; simpl.
  - intros [= ->]. rewrite Forall_nil. tauto.
  - intros H. rewrite (IH _ (intersect_dims n a t Ha Ht) Hs H).
    rewrite (contains_intersect n a t s Ha Ht Hs), Forall_cons. tauto.
Qed.

(** A point lies in the intersection of the per-key regions exactly when
    it lies in each of them. *)
Lemma contains_intersect_all n regions r s :
  Forall (dims n) regions → length s = n →
  intersect_all regions = Some r →
  contains r s = true ↔ Forall (λ t, contains t s = true) regions.
Proof.
  intros Hd Hs. destruct regions as [|t regions]; [done|].
  unfold intersect_all. simpl. intros H.
  apply Forall_cons in Hd as [Ht Hd].
  rewrite (contains_intersect_from n regions t r s Hd Ht Hs H), Forall_cons.
  tauto.
Qed.

Lemma lcm_voxel_size_loop_fuel specs keys acc :
  lcm_voxel_size_loop specs keys acc ≠ OutOfFuel.
Proof.
  revert acc. induction keys as [|k keys IH]; intros acc; simpl; [done|].
  destruct (specs !! k); [apply IH|done].
Qed.

Lemma request_lcm_voxel_size_fuel self request :
  request_lcm_voxel_size self request ≠ OutOfFuel.
Proof.
  unfold request_lcm_voxel_size, get_lcm_voxel_size.
  case_bool_decide; [done|apply lcm_voxel_size_loop_fuel].
Qed.

(** With an empty region [prepare] stops at the assertion of line 124 (or
    before it), the random source untouched. *)
Lemma prepare_empty_region_raises self request shift_roi fuel g :
  shift_roi_loop (upstream_spec self) (items request) None = Ok (Some shift_roi) →
  size shift_roi = 0 →
  prepare fuel self request g =
  (match request_lcm_voxel_size self request with
   | Ok _ => Raise AssertionError
   | Raise e => Raise e
   | OutOfFuel => OutOfFuel
   end, g).
Proof.
  intros Hloop Hsize. unfold prepare. rewrite bind_lift.
  unfold shift_regions.
  destruct (request_lcm_voxel_size self request) as [lcm| |]; simpl; try done.
  rewrite Hloop. simpl. rewrite Hsize. done.
Qed.

(** The per-key region, written out for three-dimensional ROIs: its offset
    is the provided offset minus the requested begin, its shape the
    provided shape minus the requested shape. *)
Lemma type_shift_roi_coordinates p0 p1 p2 a0 a1 a2 r0 r1 r2 b0 b1 b2 :
  grow (shift (mkRoi [p0; p1; p2] [a0; a1; a2])
              (neg (get_begin (mkRoi [r0; r1; r2] [b0; b1; b2]))))
       [0; 0; 0] (neg (get_shape (mkRoi [r0; r1; r2] [b0; b1; b2])))
  = mkRoi [p0 - r0; p1 - r1; p2 - r2] [a0 - b0; a1 - b1; a2 - b2].
Proof.
  unfold grow, shift, neg, get_begin, get_shape, add, sub. simpl.
  f_equal; repeat (f_equal; try lia).
Qed.

(** C1. In [prepare] the loop of lines 107-120 computes, for every
    requested key, the region
    [provided_roi.shift(-request_roi.get_begin()).grow((0,0,0), -request_roi.get_shape())]
    from the ROI the upstream spec has for the key and the requested ROI
    (for three-dimensional ROIs: the provided offset minus the requested
    begin, the provided shape minus the requested shape), and intersects
    these regions over the requested keys; the intersection holds exactly
    the shifts lying in every one of them; and when it has size 0,
    [prepare] raises without reading the random source, whatever the
    fuel. *)
Theorem prepare_feasible_shift_region self request regions :
  Forall2 (λ item t, ∃ provided provided_roi request_roi,
             upstream_spec self !! item.1 = Some provided ∧
             roi provided = Some provided_roi ∧
             roi item.2 = Some request_roi ∧
             t = grow (shift provided_roi (neg (get_begin request_roi)))
                      [0; 0; 0] (neg (get_shape request_roi)))
          (items request) regions →
  shift_roi_loop (upstream_spec self) (items request) None
    = Ok (intersect_all regions) ∧
  (∀ p0 p1 p2 a0 a1 a2 r0 r1 r2 b0 b1 b2,
     type_shift_roi (mkRoi [p0; p1; p2] [a0; a1; a2])
                    (mkRoi [r0; r1; r2] [b0; b1; b2])
     = mkRoi [p0 - r0; p1 - r1; p2 - r2] [a0 - b0; a1 - b1; a2 - b2]) ∧
  ∀ shift_roi, intersect_all regions = Some shift_roi →
    (Forall (dims 3) regions → ∀ s, length s = 3%nat →
       contains shift_roi s = true ↔
       Forall (λ t, contains t s = true) regions) ∧
    (size shift_roi = 0 →
       ∀ fuel g, ∃ e, prepare fuel self request g = (Raise e, g)).
Proof.
  intros Hregions.
  assert (Forall2 (λ item t, key_region (upstream_spec self) item = Some t)
                  (items request) regions) as Hkeys.
  { eapply Forall2_impl; [exact Hregions|].
    intros [k sp] t (provided & p & r & Hk & Hp & Hr & ->).
    simpl in Hk, Hr. unfold key_region. simpl. rewrite Hk. simpl.
    rewrite Hp. simpl. by rewrite Hr. }
  pose proof (shift_roi_loop_regions _ _ _ None Hkeys) as Hloop.
  split; [done|]. split; [intros; apply type_shift_roi_coordinates|].
  intros shift_roi Hall. split.
  - intros Hd s Hs. by apply (contains_intersect_all 3 regions).
  - intros Hsize fuel g.
    rewrite (prepare_empty_region_raises self request shift_roi fuel g);
      [|by rewrite Hloop, <- Hall|done].
    pose proof (request_lcm_voxel_size_fuel self request).
    destruct (request_lcm_voxel_size self request); [eauto..|done].
Qed.

End FeasibleRegion.

Section FeasibleRegionExamples.

Import RandomLocation Scenario.

Lemma prepare_feasible_shift_region_witness :
  shift_roi_loop (upstream_spec (plain_node 1)) (items (raw_request 10)) None
    = Ok (intersect_all [cube 0 10]) ∧
  (∀ p0 p1 p2 a0 a1 a2 r0 r1 r2 b0 b1 b2,
     type_shift_roi (mkRoi [p0; p1; p2] [a0; a1; a2])
                    (mkRoi [r0; r1; r2] [b0; b1; b2])
     = mkRoi [p0 - r0; p1 - r1; p2 - r2] [a0 - b0; a1 - b1; a2 - b2]) ∧
  ∀ shift_roi, intersect_all [cube 0 10] = Some shift_roi →
    (Forall (dims 3) [cube 0 10] → ∀ s, length s = 3%nat →
       contains shift_roi s = true ↔
       Forall (λ t, contains t s = true) [cube 0 10]) ∧
    (size shift_roi = 0 →
       ∀ fuel g, ∃ e, prepare fuel (plain_node 1) (raw_request 10) g = (Raise e, g)).
Proof.
  apply (prepare_feasible_shift_region (plain_node 1) (raw_request 10) [cube 0 10]).
  assert (items (raw_request 10)
          = [(ArrayKey "raw", mkSpec (Some (cube 0 10)) [1; 1; 1])]) as ->
    by (vm_compute; reflexivity).
  constructor; [|constructor].
  exists (mkSpec (Some (cube 0 20)) [1; 1; 1]), (cube 0 20), (cube 0 10).
  split; [vm_compute; reflexivity|]. split; [reflexivity|].
  split; reflexivity.
Defined.

(** A request as large as the upstream bound leaves a region of size 0:
    [prepare] fails on it, before drawing anything. *)
Example prepare_full_size_request_fails fuel g :
  prepare fuel (plain_node 1) (raw_request 20) g = (Raise AssertionError, g).
Proof.
  rewrite (prepare_empty_region_raises _ _ (cube 0 0)); [done|..]; by vm_compute.
Qed.

End FeasibleRegionExamples.

(** ** [RandomLocation.setup] *)

Section Setup.

Import RandomLocation.

Lemma foldl_insert_lookup {A} (f : A → A) (l : list (string * A))
    (m : gmap string A) k :
  NoDup l.*1 →
  (∀ a, (k, a) ∈ l →
     foldl (λ acc '(n, a), <[n := f a]> acc) m l !! k = Some (f a)) ∧
  (k ∉ l.*1 → foldl (λ acc '(n, a), <[n := f a]> acc) m l !! k = m !! k).
Proof.
  revert m. induction l as [|[n a] l IH]; intros m Hnd; simpl.
  - split; [intros a H; by apply elem_of_nil in H|done].
  - apply NoDup_cons in Hnd as [Hn Hnd].
    destruct (IH (<[n := f a]> m) Hnd) as [IH1 IH2]. split.
    + intros a0 [Heq|Hin]%elem_of_cons.
      * simplify_eq. rewrite IH2 by done. apply lookup_insert_eq.
      * by apply IH1.
    + intros Hk. apply not_elem_of_cons in Hk as [Hkn Hk].
      rewrite IH2 by done. by apply lookup_insert_ne.
Qed.

Lemma foldl_insert_map_to_list {A} (f : A → A) (m : gmap string A) k :
  foldl (λ acc '(n, a), <[n := f a]> acc) m (map_to_list m) !! k
  = f <$> m !! k.
Proof.
  destruct (foldl_insert_lookup f (map_to_list m) m k
              (NoDup_fst_map_to_list m)) as [H1 H2].
  destruct (m !! k) as [a|] eqn:Hk; simpl.
  - apply H1. by apply elem_of_map_to_list.
  - rewrite H2; [done|].
    intros ([k' a] & -> & Hin)%list_elem_of_fmap.
    apply elem_of_map_to_list in Hin. simpl in Hk. congruence.
Qed.

Lemma foldl_updates_arrays (f : Spec → Spec) l s :
  foldl (λ acc '(identifier, sp), updates acc identifier (f sp)) s
        (prod_map ArrayKey id <$> l)
  = mkProviderSpec (foldl (λ acc '(n, a), <[n := f a]> acc) (array_specs s) l)
                   (points_specs s).
Proof.
  revert s. induction l as [|[n a] l IH]; intros s; simpl.
  - by destruct s.
  - by rewrite IH.
Qed.

Lemma foldl_updates_points (f : Spec → Spec) l s :
  foldl (λ acc '(identifier, sp), updates acc identifier (f sp)) s
        (prod_map PointsKey id <$> l)
  = mkProviderSpec (array_specs s)
                   (foldl (λ acc '(n, a), <[n := f a]> acc) (points_specs s) l).
Proof.
  revert s. induction l as [|[n a] l IH]; intros s; simpl.
  - by destruct s.
  - by rewrite IH.
Qed.

(** The loop of lines 86-88 clears the ROI of every entry and nothing
    else. *)
Lemma clear_rois_lookup s (k : Key) :
  clear_rois s !! k = set_roi None <$> s !! k.
Proof.
  unfold clear_rois, items. rewrite foldl_app, foldl_updates_arrays,
    foldl_updates_points. simpl.
  destruct k as [n|n]; unfold lookup, provider_spec_lookup; simpl;
    apply foldl_insert_map_to_list.
Qed.

(** C10. After [setup] every entry of the spec the node advertises is the
    entry it had with [roi = None] (so every advertised key has no ROI),
    while the node keeps the total ROI of its upstream provider, which is
    set, and the upstream spec with its ROIs. *)
Theorem setup_advertises_unbounded self node :
  setup self = Ok node →
  (∀ k : Key, spec node !! k = set_roi None <$> spec self !! k) ∧
  (∀ (k : Key) sp, spec node !! k = Some sp → roi sp = None) ∧
  upstream_roi node = total_roi (upstream self) ∧
  is_Some (upstream_roi node) ∧
  upstream_spec node = provider_spec (upstream self).
Proof.
  unfold setup. destruct (total_roi (upstream self)) as [r|] eqn:Hr; [|done].
  intros H. apply outcome_bind_Ok_inv in H as ([[ms dt] ii] & _ & H).
  injection H as <-. simpl.
  assert (∀ k : Key, clear_rois (spec self) !! k = set_roi None <$> spec self !! k)
    as Hclear by apply clear_rois_lookup.
  split_and!; [done| |done|by eexists|done].
  intros k sp. rewrite Hclear. destruct (spec self !! k); [|done].
  by intros [= <-].
Qed.

(** When and how [setup] raises: a [RuntimeError] exactly when the upstream
    provider has no total ROI; an [AssertionError] exactly when it has one
    and a mask is configured with a positive [min_masked] that the upstream
    spec does not hold; nothing else. *)
Lemma setup_outcomes self :
  (setup self = Raise RuntimeError ↔ total_roi (upstream self) = None) ∧
  (setup self = Raise AssertionError ↔
     is_Some (total_roi (upstream self)) ∧
     ∃ m, mask self = Some m ∧
          F64.ltb F64.zero (min_masked self) = true ∧
          provider_spec (upstream self) !! ArrayKey m = None) ∧
  (∀ e, setup self = Raise e → e = RuntimeError ∨ e = AssertionError) ∧
  setup self ≠ OutOfFuel.
Proof.
  unfold setup. destruct (total_roi (upstream self)) as [r|] eqn:Hr.
  - destruct (mask self) as [m|] eqn:Hm; simpl;
      [destruct (F64.ltb F64.zero (min_masked self)) eqn:Hlt; simpl;
       [destruct (provider_spec (upstream self) !! ArrayKey m) eqn:Hup; simpl|]|].
    all: split_and!; try done; try naive_solver.
  - split_and!; try done; naive_solver.
Qed.

End Setup.

Section SetupErrors.

Import RandomLocation Scenario.

(** C7, as the code has it. [setup] raises exactly when the upstream
    provider has no total ROI, or a mask is configured with a positive
    [min_masked] and the upstream spec does not hold it; without a total
    ROI the error is the [RuntimeError] of line 58. *)
Theorem setup_raises_iff self :
  ((∃ e, setup self = Raise e) ↔
     total_roi (upstream self) = None ∨
     ∃ m, mask self = Some m ∧
          F64.ltb F64.zero (min_masked self) = true ∧
          provider_spec (upstream self) !! ArrayKey m = None) ∧
  (total_roi (upstream self) = None → setup self = Raise RuntimeError).
Proof.
  destruct (setup_outcomes self) as (Hrt & Has & Hother & _).
  split; [|apply Hrt]. split.
  - intros [e He]. destruct (Hother e He) as [-> | ->].
    + left. by apply Hrt.
    + right. by apply Has.
  - intros [Hnone | Hmask].
    + exists RuntimeError. by apply Hrt.
    + destruct (total_roi (upstream self)) as [r|] eqn:Hr.
      * exists AssertionError. apply Has. split; [by eexists|done].
      * exists RuntimeError. by apply Hrt.
Qed.

(** C7 as stated fails: this node has an upstream with a bounding box, and
    its [setup] raises all the same (the assertion of line 62). *)
Lemma setup_raises_with_bounding_box :
  ¬ ((∃ e, setup masked_node = Raise e) ↔
     total_roi (upstream masked_node) = None).
Proof.
  intros [H _].
  assert (setup masked_node = Raise AssertionError) as Hs by (by vm_compute).
  specialize (H (ex_intro _ _ Hs)). discriminate H.
Qed.

Lemma elem_of_items request (k : Key) sp :
  request !! k = Some sp → (k, sp) ∈ items request.
Proof.
  unfold items. intros H. apply elem_of_app.
  destruct k as [n|n]; [left|right]; apply list_elem_of_fmap;
    exists (n, sp); (split; [done|by apply elem_of_map_to_list]).
Qed.

Lemma shift_roi_loop_missing_key us its k sp acc :
  (k, sp) ∈ its → us !! k = None →
  ∃ e, shift_roi_loop us its acc = Raise e.
Proof.
  intros Hin Hk. revert acc. induction its as [|[k' sp'] its IH]; intros acc.
  - by apply elem_of_nil in Hin.
  - simpl. destruct (us !! k') as [provided|] eqn:Hk'; [|eauto].
    apply elem_of_cons in Hin as [Heq|Hin]; [simplify_eq|].
    destruct (roi provided), (roi sp'); eauto.
Qed.

(** A request naming a key the upstream spec lacks makes [prepare] raise,
    with the random source as it was. *)
Lemma prepare_missing_key_raises self request (k : Key) sp fuel g :
  request !! k = Some sp → upstream_spec self !! k = None →
  ∃ e, prepare fuel self request g = (Raise e, g).
Proof.
  intros Hreq Hup. unfold prepare. rewrite bind_lift. unfold shift_regions.
  pose proof (request_lcm_voxel_size_fuel self request).
  destruct (request_lcm_voxel_size self request) as [lcm|e|]; simpl;
    [|eauto|done].
  destruct (shift_roi_loop_missing_key (upstream_spec self) (items request)
              k sp None (elem_of_items _ _ _ Hreq) Hup) as [e ->].
  simpl. eauto.
Qed.

(** C8, as the code has it. A mask configured with a positive [min_masked]
    that the upstream provider lacks makes [setup] raise; a request naming
    a key the upstream spec lacks makes [prepare] raise on that call,
    whatever the fuel and before anything is drawn from the random source
    (so before any upstream request of the sampling loop). *)
Theorem missing_key_errors self :
  (∀ m, mask self = Some m →
        F64.ltb F64.zero (min_masked self) = true →
        provider_spec (upstream self) !! ArrayKey m = None →
        ∃ e, setup self = Raise e) ∧
  (∀ request (k : Key) sp fuel g,
        request !! k = Some sp → upstream_spec self !! k = None →
        ∃ e, prepare fuel self request g = (Raise e, g)).
Proof.
  split.
  - intros m Hm Hlt Hup. destruct (setup_outcomes self) as (Hrt & Has & _).
    destruct (total_roi (upstream self)) as [r|] eqn:Hr.
    + exists AssertionError. apply Has. split; [by eexists|eauto].
    + exists RuntimeError. by apply Hrt.
  - intros. by eapply prepare_missing_key_raises.
Qed.

(** C8 as stated fails: [setup] of the plain node succeeds, and the error
    for the point set [pts], which the upstream does not provide, is raised
    by [prepare]. *)
Lemma missing_request_key_raised_by_prepare :
  setup (init F64.zero None None (bounded_upstream 1)) = Ok (plain_node 1) ∧
  raw_and_points_request !! PointsKey "pts" = Some (mkSpec (Some (cube 0 10)) []) ∧
  upstream_spec (plain_node 1) !! PointsKey "pts" = None ∧
  ∀ fuel g,
    prepare fuel (plain_node 1) raw_and_points_request g = (Raise Exception, g).
Proof.
  split_and!; [by vm_compute..|].
  intros fuel g. unfold prepare. rewrite bind_lift.
  by replace (shift_regions (plain_node 1) raw_and_points_request)
    with (@Raise (Roi * Roi * option Coordinate) Exception) by (by vm_compute).
Qed.

Lemma missing_key_errors_witness :
  (∃ e, setup masked_node = Raise e) ∧
  ∀ fuel g, ∃ e,
    prepare fuel (plain_node 1) raw_and_points_request g = (Raise e, g).
Proof.
  destruct (missing_key_errors masked_node) as [Hsetup _].
  destruct (missing_key_errors (plain_node 1)) as [_ Hprepare].
  split.
  - apply (Hsetup "mask"); by vm_compute.
  - intros fuel g.
    apply (Hprepare raw_and_points_request (PointsKey "pts")
             (mkSpec (Some (cube 0 10)) [])); by vm_compute.
Defined.

Lemma setup_advertises_unbounded_witness :
  (∀ k : Key, spec (plain_node 1) !! k
              = set_roi None <$> spec (init F64.zero None None (bounded_upstream 1)) !! k) ∧
  (∀ (k : Key) sp, spec (plain_node 1) !! k = Some sp → roi sp = None) ∧
  upstream_roi (plain_node 1) = total_roi (bounded_upstream 1) ∧
  is_Some (upstream_roi (plain_node 1)) ∧
  upstream_spec (plain_node 1) = provider_spec (bounded_upstream 1).
Proof.
  apply (setup_advertises_unbounded
           (init F64.zero None None (bounded_upstream 1)) (plain_node 1)).
  by vm_compute.
Defined.

End SetupErrors.

(** ** [RandomLocation.prepare]: the sampling loop *)

Section Sampling.

Import RandomLocation.

(** What a successful [prepare] went through. *)
Lemma prepare_Ok_inv fuel self request g node' request' g' :
  prepare fuel self request g = (Ok (node', request'), g') →
  ∃ shift_roi lcm_shift_roi lcm_voxel_size s,
    shift_regions self request = Ok (shift_roi, lcm_shift_roi, lcm_voxel_size) ∧
    sample_loop fuel self request shift_roi lcm_shift_roi lcm_voxel_size g
      = (Ok s, g') ∧
    shift_specs_loop (upstream_roi self) s
      (map_to_list (array_specs request)) (array_specs request)
      = Ok (array_specs request') ∧
    shift_specs_loop (upstream_roi self) s
      (map_to_list (points_specs request)) (points_specs request)
      = Ok (points_specs request') ∧
    node' = set_random_shift self s.
Proof.
  unfold prepare. intros H.
  apply bind_Ok_inv in H as ([[sr lsr] lcm] & g1 & [Hreg ->]%lift_Ok_inv & H).
  apply bind_Ok_inv in H as (s & g2 & Hloop & H).
  apply bind_Ok_inv in H as (a' & g3 & [Ha ->]%lift_Ok_inv & H).
  apply bind_Ok_inv in H as (p' & g4 & [Hp ->]%lift_Ok_inv & H).
  injection H as <- <- <-. by exists sr, lsr, lcm, s.
Qed.

Lemma shift_specs_loop_lookup up s its (m m' : gmap string Spec) k :
  NoDup its.*1 →
  shift_specs_loop up s its m = Ok m' →
  (∀ sp, (k, sp) ∈ its →
     ∃ r u, roi sp = Some r ∧ up = Some u ∧
            contains_roi u (shift r s) = true ∧
            m' !! k = Some (set_roi (Some (shift r s)) sp)) ∧
  (k ∉ its.*1 → m' !! k = m !! k).
Proof.
  revert m. induction its as [|[n a] its IH]; intros m Hnd; simpl.
  - intros [= ->]. split; [intros sp H; by apply elem_of_nil in H|done].
  - apply NoDup_cons in Hnd as [Hn Hnd].
    destruct (roi a) as [r|] eqn:Hr; [|done].
    destruct up as [u|] eqn:Hu; [|done].
    destruct (contains_roi u (shift r s)) eqn:Hc; [|done].
    intros H. destruct (IH _ Hnd H) as [IH1 IH2]. split.
    + intros sp [Heq|Hin]%elem_of_cons.
      * simplify_eq. exists r, u. split_and!; try done.
        rewrite IH2 by done. apply lookup_insert_eq.
      * by apply IH1.
    + intros Hk. apply not_elem_of_cons in Hk as [Hkn Hk].
      rewrite IH2 by done. by apply lookup_insert_ne.
Qed.

Lemma shift_specs_loop_map_to_list up s (m m' : gmap string Spec) k sp :
  shift_specs_loop up s (map_to_list m) m = Ok m' →
  m !! k = Some sp →
  ∃ r u, roi sp = Some r ∧ up = Some u ∧
         contains_roi u (shift r s) = true ∧
         m' !! k = Some (set_roi (Some (shift r s)) sp).
Proof.
  intros H Hk.
  destruct (shift_specs_loop_lookup up s (map_to_list m) m m' k
              (NoDup_fst_map_to_list m) H) as [H1 _].
  apply H1. by apply elem_of_map_to_list.
Qed.

(** Whatever [prepare] returns passed the assertion of line 224: every
    requested ROI, moved by the shift recorded, lies in the total ROI of
    the upstream provider, and is the ROI of the request sent upstream. *)
Lemma prepare_shifted_rois fuel self request g node' request' g' (k : Key) sp :
  prepare fuel self request g = (Ok (node', request'), g') →
  request !! k = Some sp →
  ∃ r up, roi sp = Some r ∧ upstream_roi self = Some up ∧
          contains_roi up (shift r (random_shift node')) = true ∧
          request' !! k = Some (set_roi (Some (shift r (random_shift node'))) sp).
Proof.
  intros H Hk.
  apply prepare_Ok_inv in H as (sr & lsr & lcm & s & _ & _ & Ha & Hp & ->).
  destruct k as [n|n]; unfold lookup, provider_spec_lookup in *; simpl.
  - by apply (shift_specs_loop_map_to_list _ _ _ _ _ _ Ha).
  - by apply (shift_specs_loop_map_to_list _ _ _ _ _ _ Hp).
Qed.

(** Without constraints one pass of the loop is enough: it returns the
    shift drawn. *)
Lemma sample_loop_unconstrained fuel self request sr lsr lcm g :
  ensure_nonempty self = None → mask_active self = false →
  sample_loop (S fuel) self request sr lsr lcm g = draw_shift lsr lcm g.
Proof.
  intros He Hm. simpl. unfold sample_once, ensure_point, check_mask.
  rewrite He, Hm. rewrite !bind_run.
  destruct (draw_shift lsr lcm g) as [[s| |] g1]; done.
Qed.

Lemma prepare_unconstrained_one_pass fuel self request g :
  ensure_nonempty self = None → mask_active self = false →
  prepare (S fuel) self request g = prepare 1 self request g.
Proof.
  intros He Hm. unfold prepare. rewrite !bind_lift.
  destruct (shift_regions self request) as [[[sr lsr] lcm]| |]; [|done..].
  rewrite !(bind_run (sample_loop _ _ _ _ _ _)).
  by rewrite !sample_loop_unconstrained.
Qed.

Lemma random_coordinate_fuel adj b e g :
  (random_coordinate adj b e g).1 ≠ OutOfFuel.
Proof.
  revert e g. induction b as [|x b IH]; intros [|y e] g; simpl; try done.
  rewrite bind_run. unfold randint. destruct (y + adj <? x); [done|].
  rewrite bind_run.
  specialize (IH e (mkRng (tape g) (S (cursor g)))).
  destruct (random_coordinate adj b e _) as [[c| |] g1]; done.
Qed.

(** Drawing a coordinate fails only on an empty range. *)
Lemma random_coordinate_raises adj b e g ex g' :
  random_coordinate adj b e g = (Raise ex, g') → ex = ValueError.
Proof.
  revert e g ex g'. induction b as [|x b IH]; intros [|y e] g ex g'; simpl;
    try done.
  rewrite bind_run. unfold randint at 1.
  destruct (y + adj <? x); [by intros [= <- _]|]. rewrite bind_run.
  destruct (random_coordinate adj b e _) as [[c| |] g2] eqn:Hc; try done.
  intros [= <- _]. by eapply IH.
Qed.






(** What [shift_regions] returned when it did. *)
Lemma shift_regions_Ok_inv self request sr lsr lcm :
  shift_regions self request = Ok (sr, lsr, lcm) →
  request_lcm_voxel_size self request = Ok lcm ∧
  shift_roi_loop (upstream_spec self) (items request) None = Ok (Some sr) ∧
  0 < size sr ∧
  lsr = match lcm with Some v => div sr v | None => sr end.
Proof.
  unfold shift_regions.
  intros (lcm' & Hlcm & H)%outcome_bind_Ok_inv.
  apply outcome_bind_Ok_inv in H as ([sr'|] & Hloop & H); [|done].
  destruct (Z.ltb_spec 0 (size sr')); [|done].
  injection H as <- <- <-. done.
Qed.

(** Drawing a coordinate between [b] and [e - 1] succeeds when [b < e] on
    every axis. *)
Lemma random_coordinate_total b e g :
  lt b e = true → ∃ c g', random_coordinate (-1) b e g = (Ok c, g').
Proof.
  revert e g. induction b as [|x b IH]; intros [|y e] g; simpl;
    try (intros _; by eexists _, _).
  unfold lt. simpl. intros [Hxy Hrest]%andb_true_iff.
  apply Z.ltb_lt in Hxy. rewrite bind_run.
  destruct (randint_total x (y + -1) g) as [v ->]; [lia|].
  rewrite bind_run.
  destruct (IH e (mkRng (tape g) (S (cursor g))) Hrest) as (c & g' & ->).
  by eexists _, _.
Qed.

Lemma draw_shift_total lsr lcm g :
  lt (get_begin lsr) (get_end lsr) = true →
  ∃ s g', draw_shift lsr lcm g = (Ok s, g').
Proof.
  intros H. unfold draw_shift. rewrite bind_run.
  destruct (random_coordinate_total _ _ g H) as (c & g' & ->).
  by eexists _, _.
Qed.


End Sampling.

Section UnconstrainedScenario.

Import RandomLocation Scenario.





End UnconstrainedScenario.

(** ** [RandomLocation.prepare]: the search for a local shift *)

Section LocalSearch.

Import RandomLocation.

Lemma twos_lookup i t : [2; 2; 2] !! i = Some t → t = 2.
Proof. destruct i as [|[|[|i]]]; simpl; naive_solver. Qed.

(** The assertion of lines 174-175 cannot fail: a local shift drawn from
    [local_shift_roi] leaves the chosen point inside the requested region. *)
Lemma local_shift_keeps_point init off shp chosen local g g' :
  let distance := sub chosen (add init off) in
  let local_shift_roi :=
    mkRoi (sub distance (sub shp [2; 2; 2])) (sub shp [2; 2; 2]) in
  random_coordinate 0 (get_begin local_shift_roi) (get_end local_shift_roi) g
    = (Ok local, g') →
  contains (mkRoi (add (add init local) off) shp) chosen = true.
Proof.
  intros distance local_shift_roi Hdraw.
  apply random_coordinate_range in Hdraw as [Hlen Hrange].
  assert (∀ i v a f x, local !! i = Some v → init !! i = Some a →
            off !! i = Some f → chosen !! i = Some x →
            ∃ s, shp !! i = Some s ∧
                 x - (a + f) - (s - 2) ≤ v ≤ x - (a + f)) as Hat.
  { intros i v a f x Hv Ha Hf Hx.
    assert (is_Some (get_begin local_shift_roi !! i)) as [bx Hb].
    { apply lookup_lt_is_Some_2. apply lookup_lt_Some in Hv. lia. }
    assert (is_Some (get_end local_shift_roi !! i)) as [ey He].
    { apply lookup_lt_is_Some_2. apply lookup_lt_Some in Hv. lia. }
    specialize (Hrange i bx ey v Hb He Hv).
    unfold get_end, get_begin, local_shift_roi, distance in Hb, He. simpl in *.
    rewrite lookup_add, Hb in He. simpl in He.
    rewrite !lookup_sub, !lookup_add, Hx, Ha, Hf in Hb.
    rewrite !lookup_sub in He. simpl in Hb.
    destruct (shp !! i) as [s|]; [|done].
    destruct ([2; 2; 2] !! i) as [t|] eqn:Ht; [|done].
    apply twos_lookup in Ht as ->. simpl in *. simplify_eq.
    exists s. split; [done|lia]. }
  apply contains_spec. simpl. split.
  - intros i o x Ho Hx. rewrite !lookup_add in Ho.
    destruct (init !! i) as [a|] eqn:Ha; [|done].
    destruct (local !! i) as [v|] eqn:Hv; [|done].
    destruct (off !! i) as [f|] eqn:Hf; [|done].
    simpl in Ho. simplify_eq.
    destruct (Hat i v a f x Hv Ha Hf Hx) as (s & _ & ?). lia.
  - intros i o s x Ho Hs Hx. rewrite !lookup_add in Ho.
    destruct (init !! i) as [a|] eqn:Ha; [|done].
    destruct (local !! i) as [v|] eqn:Hv; [|done].
    destruct (off !! i) as [f|] eqn:Hf; [|done].
    simpl in Ho. simplify_eq.
    destruct (Hat i v a f x Hv Ha Hf Hx) as (s' & Hs' & ?).
    simplify_eq. lia.
Qed.

(** What the search returns: the trial counter moved on and stayed within
    the cap; a shift reported as found was accepted before the cap, is the
    initial shift plus a local one, lies in the region of feasible shifts
    and keeps the chosen point in the requested region; a search reported
    as failed ran up to the cap. *)
Lemma local_shift_loop_inv fuel max trial_nr sr lsr init off shp chosen rs g r g' :
  local_shift_loop fuel max trial_nr sr lsr init off shp chosen rs g
    = (Ok r, g') →
  trial_nr < search_trials r ∧
  (trial_nr < max → search_trials r ≤ max) ∧
  (search_found r = true →
     search_trials r ≠ max ∧
     contains sr (search_shift r) = true ∧
     contains (mkRoi (add (search_shift r) off) shp) chosen = true ∧
     ∃ local, search_shift r = add init local) ∧
  (search_found r = false → search_trials r = max).
Proof.
  revert trial_nr rs g. induction fuel as [|fuel IH]; intros trial_nr rs g;
    simpl; [done|].
  intros H. apply bind_Ok_inv in H as (local & g1 & Hlocal & H).
  destruct (contains sr (add init local)) eqn:Hgood; simpl in H.
  - destruct (contains (mkRoi (add (add init local) off) shp) chosen) eqn:Hpt;
      simpl in H; [|done].
    destruct (Z.eqb_spec (trial_nr + 1) max) as [Hmax|Hmax].
    + injection H as <- <-. simpl. split_and!; [lia|lia|done|done].
    + injection H as <- <-. simpl.
      split_and!; [lia|lia| |done]. intros _. split_and!; eauto.
  - destruct (Z.eqb_spec (trial_nr + 1) max) as [Hmax|Hmax].
    + injection H as <- <-. simpl. split_and!; [lia|lia|done|done].
    + apply IH in H as (H1 & H2 & H3 & H4). split_and!; [lia|lia|done|done].
Qed.

(** The search ends within [max_trials] passes: that much fuel is never
    used up. *)
Lemma local_shift_loop_fuel fuel max trial_nr sr lsr init off shp chosen rs g :
  trial_nr < max → (Z.to_nat (max - trial_nr) ≤ fuel)%nat →
  (local_shift_loop fuel max trial_nr sr lsr init off shp chosen rs g).1
    ≠ OutOfFuel.
Proof.
  revert trial_nr rs g. induction fuel as [|fuel IH]; intros trial_nr rs g Hlt Hfuel;
    simpl; [lia|].
  rewrite bind_run.
  pose proof (random_coordinate_fuel 0 (get_begin lsr) (get_end lsr) g).
  destruct (random_coordinate 0 _ _ g) as [[local| |] g1]; [|done..].
  destruct (contains sr (add init local) &&
            negb (contains (mkRoi (add (if contains sr (add init local)
                                        then add init local else rs) off) shp)
                           chosen)); [done|].
  destruct (Z.eqb_spec (trial_nr + 1) max) as [Hmax|Hmax]; [done|].
  destruct (contains sr (add init local)); [done|].
  apply IH; lia.
Qed.

(** The search never fails on its assertion when it is entered as
    [prepare] enters it. *)
Lemma local_shift_loop_no_assertion fuel max trial_nr sr init off shp chosen rs g g' :
  let distance := sub chosen (add init off) in
  let local_shift_roi :=
    mkRoi (sub distance (sub shp [2; 2; 2])) (sub shp [2; 2; 2]) in
  local_shift_loop fuel max trial_nr sr local_shift_roi init off shp chosen rs g
    ≠ (Raise AssertionError, g').
Proof.
  intros distance lsr.
  assert (∀ g local g1,
            random_coordinate 0 (get_begin lsr) (get_end lsr) g = (Ok local, g1) →
            contains (mkRoi (add (add init local) off) shp) chosen = true)
    as Hkeep by (intros; by eapply local_shift_keeps_point).
  clearbody lsr. clear distance. revert trial_nr rs g.
  induction fuel as [|fuel IH]; intros trial_nr rs g; simpl; [done|].
  rewrite bind_run.
  destruct (random_coordinate 0 _ _ g) as [[local|e|] g1] eqn:Hlocal.
  - apply Hkeep in Hlocal.
    destruct (contains sr (add init local)) eqn:Hgood; simpl.
    + rewrite Hlocal. simpl.
      destruct (trial_nr + 1 =? max); discriminate.
    + destruct (trial_nr + 1 =? max); [discriminate|apply IH].
  - apply random_coordinate_raises in Hlocal as ->. discriminate.
  - done.
Qed.

End LocalSearch.

(** ** [RandomLocation.prepare]: the constraints on a shift *)

Section Constraints.

Import RandomLocation.

Lemma choice_inv {A} (l : list A) g x g' :
  choice l g = (Ok x, g') → x ∈ l.
Proof.
  unfold choice. intros H. apply bind_Ok_inv in H as (i & g1 & _ & H).
  destruct (l !! Z.to_nat i) as [y|] eqn:Hy; [|done].
  injection H as <- _. by eapply list_elem_of_lookup_2.
Qed.

(** With [ensure_nonempty] set the points constraint stops at line 147,
    on the attribute [points_spec], with the random source as it was. *)
Lemma ensure_point_raises self request sr init g key :
  ensure_nonempty self = Some key →
  ensure_point self request sr init g = (Raise AttributeError, g).
Proof. intros Hkey. unfold ensure_point. by rewrite Hkey. Qed.

Lemma choice_fuel {A} (l : list A) g : (choice l g).1 ≠ OutOfFuel.
Proof.
  unfold choice. rewrite bind_run. unfold randint.
  destruct (_ <? _); [done|]. by destruct (l !! _).
Qed.

Lemma local_search_fuel max sr lsr init off shp chosen rs g :
  0 < max →
  (local_shift_loop (Z.to_nat max) max 0 sr lsr init off shp chosen rs g).1
    ≠ OutOfFuel.
Proof. intros Hmax. apply local_shift_loop_fuel; lia. Qed.

(** The points constraint always comes to an end. *)
Lemma ensure_point_fuel self request sr init g :
  (ensure_point self request sr init g).1 ≠ OutOfFuel.
Proof.
  destruct (ensure_nonempty self) as [key|] eqn:Hkey.
  - by rewrite (ensure_point_raises _ _ _ _ _ key).
  - unfold ensure_point. by rewrite Hkey.
Qed.


(** A shift returned by the loop is the shift of a pass that ended with
    both flags set. *)
Lemma sample_loop_Ok_inv fuel self request sr lsr lcm g s g' :
  sample_loop fuel self request sr lsr lcm g = (Ok s, g') →
  ∃ g0, sample_once self request sr lsr lcm g0 = (Ok (s, true, true), g').
Proof.
  revert g. induction fuel as [|fuel IH]; intros g; simpl; [done|].
  intros H. apply bind_Ok_inv in H as ([[s' fm] fp] & g1 & Honce & H).
  destruct fm, fp; simpl in H; try by apply IH in H.
  injection H as <- <-. by exists g.
Qed.

Lemma sample_once_Ok_inv self request sr lsr lcm g s fm fp g' :
  sample_once self request sr lsr lcm g = (Ok (s, fm, fp), g') →
  ∃ init g1,
    draw_shift lsr lcm g = (Ok init, g1) ∧
    ensure_point self request sr init g1 = (Ok (s, fp), g') ∧
    check_mask self request s = Ok fm.
Proof.
  unfold sample_once. intros H.
  apply bind_Ok_inv in H as (init & g1 & Hdraw & H).
  apply bind_Ok_inv in H as ([s' fp'] & g2 & Hpt & H).
  apply bind_Ok_inv in H as (fm' & g3 & [Hmask ->]%lift_Ok_inv & H).
  injection H as <- <- <- <-. by exists init, g1.
Qed.

(** With [ensure_nonempty] set no run of [prepare] returns: every pass of
    its loop stops at line 147. *)
Lemma prepare_points_constraint_never_returns
    self request key fuel g node' request' g' :
  ensure_nonempty self = Some key →
  prepare fuel self request g ≠ (Ok (node', request'), g').
Proof.
  intros Hkey H.
  apply prepare_Ok_inv in H as (sr & lsr & lcm & s & _ & Hloop & _).
  revert g Hloop. induction fuel as [|fuel IH]; intros g; simpl; [done|].
  rewrite bind_run. unfold sample_once. rewrite bind_run.
  destruct (draw_shift lsr lcm g) as [[init| |] g1]; [|done..].
  rewrite bind_run, (ensure_point_raises _ _ _ _ _ key Hkey). done.
Qed.

(** On a region it can draw from, the first pass draws a shift and stops
    at line 147. *)
Lemma prepare_points_constraint_raises self request key sr lsr lcm fuel g :
  ensure_nonempty self = Some key →
  shift_regions self request = Ok (sr, lsr, lcm) →
  lt (get_begin lsr) (get_end lsr) = true →
  ∃ s g', draw_shift lsr lcm g = (Ok s, g') ∧
          prepare (S fuel) self request g = (Raise AttributeError, g').
Proof.
  intros Hkey Hreg Hlt.
  destruct (draw_shift_total lsr lcm g Hlt) as (s & g' & Hdraw).
  exists s, g'. split; [done|].
  unfold prepare. rewrite bind_lift, Hreg, bind_run. simpl.
  rewrite bind_run. unfold sample_once. rewrite bind_run, Hdraw.
  by rewrite bind_run, (ensure_point_raises _ _ _ _ _ key Hkey).
Qed.

End Constraints.

Section PointsConstraint.

Import RandomLocation Scenario.

(** C4, at the code as written. With [ensure_nonempty] set the points
    constraint never reaches the search for a local shift: every pass
    stops at line 147, where [request.points_spec] raises an
    [AttributeError] (and the name [PointsSpec] of line 153 is not bound
    either). So no run of [prepare] returns a shift, and on a region it
    can draw from, the first pass draws a shift and ends [prepare] in
    that error: a fatal one, where the claim has a rejected shift and a
    new pass. *)
Theorem points_constraint_stops_prepare self request key :
  ensure_nonempty self = Some key →
  (∀ sr init g,
     ensure_point self request sr init g = (Raise AttributeError, g)) ∧
  (∀ fuel g node' request' g',
     prepare fuel self request g ≠ (Ok (node', request'), g')) ∧
  (∀ sr lsr lcm,
     shift_regions self request = Ok (sr, lsr, lcm) →
     lt (get_begin lsr) (get_end lsr) = true →
     ∀ fuel g, ∃ s g',
       draw_shift lsr lcm g = (Ok s, g') ∧
       prepare (S fuel) self request g = (Raise AttributeError, g')).
Proof.
  intros Hkey. split_and!.
  - intros sr init g. by apply (ensure_point_raises _ _ _ _ _ key).
  - intros fuel g node' request' g'.
    by apply (prepare_points_constraint_never_returns _ _ key).
  - intros sr lsr lcm Hreg Hlt fuel g.
    by apply (prepare_points_constraint_raises _ _ key sr).
Qed.

(** The node that is to keep the point set [pts] non-empty, on an upstream
    that has a point of it: the request for [raw] and [pts] ends in the
    error, whatever the random source. *)
Lemma points_constraint_stops_prepare_witness :
  (∀ fuel g node' request' g',
     prepare fuel pointed_node raw_and_points_request g
     ≠ (Ok (node', request'), g')) ∧
  (∀ fuel g, ∃ s g',
     draw_shift (cube 0 5) (Some [2; 2; 2]) g = (Ok s, g') ∧
     prepare (S fuel) pointed_node raw_and_points_request g
     = (Raise AttributeError, g')).
Proof.
  destruct (points_constraint_stops_prepare pointed_node
              raw_and_points_request "pts") as (_ & Hnever & Hraise);
    [reflexivity|].
  split; [exact Hnever|].
  apply (Hraise (cube 0 10) (cube 0 5) (Some [2; 2; 2]));
    vm_compute; reflexivity.
Defined.

(** Without a points constraint the shift [prepare] records is a multiple
    of the least common multiple of the voxel sizes, when there is one. *)
Lemma prepare_shift_on_voxel_grid fuel self request g node' request' g'
    sr lsr v :
  ensure_nonempty self = None →
  shift_regions self request = Ok (sr, lsr, Some v) →
  prepare fuel self request g = (Ok (node', request'), g') →
  ∃ c, random_shift node' = mul c v.
Proof.
  intros Hnone Hreg H.
  apply prepare_Ok_inv in H as (sr' & lsr' & lcm & s & Hreg' & Hloop & _ & _ & ->).
  rewrite Hreg in Hreg'. injection Hreg' as <- <- <-.
  apply sample_loop_Ok_inv in Hloop as (g0 & Honce).
  apply sample_once_Ok_inv in Honce as (init & g1 & Hdraw & Hpt & _).
  unfold ensure_point in Hpt. rewrite Hnone in Hpt. injection Hpt as <- _.
  unfold draw_shift in Hdraw.
  apply bind_Ok_inv in Hdraw as (c & g2 & _ & Hret).
  injection Hret as <- _. by exists c.
Qed.



End PointsConstraint.


(** ** [RandomLocation.process] *)

Section Process.

Import RandomLocation Scenario.

Lemma update_each_lookup {A} (f : Spec → A → A) its (m m' : gmap string A) k :
  NoDup its.*1 →
  update_each f its m = Ok m' →
  (∀ sp, (k, sp) ∈ its → ∃ a, m !! k = Some a ∧ m' !! k = Some (f sp a)) ∧
  (k ∉ its.*1 → m' !! k = m !! k).
Proof.
  revert m. induction its as [|[n sp] its IH]; intros m Hnd; simpl.
  - intros [= ->]. split; [intros sp H; by apply elem_of_nil in H|done].
  - apply NoDup_cons in Hnd as [Hn Hnd].
    destruct (m !! n) as [a|] eqn:Hm; [|done].
    intros H. destruct (IH _ Hnd H) as [IH1 IH2]. split.
    + intros sp' [Heq|Hin]%elem_of_cons.
      * simplify_eq. exists a. split; [done|].
        rewrite IH2 by done. apply lookup_insert_eq.
      * destruct (IH1 sp' Hin) as (a' & Ha' & Hm').
        assert (k ≠ n) as Hkn.
        { intros ->. apply Hn. apply list_elem_of_fmap. by exists (n, sp'). }
        rewrite lookup_insert_ne in Ha' by done. eauto.
    + intros Hk. apply not_elem_of_cons in Hk as [Hkn Hk].
      rewrite IH2 by done. by apply lookup_insert_ne.
Qed.

Lemma update_each_map_to_list {A} (f : Spec → A → A)
    (specs : gmap string Spec) (m m' : gmap string A) k :
  update_each f (map_to_list specs) m = Ok m' →
  m' !! k = match specs !! k with
            | Some sp => f sp <$> m !! k
            | None => m !! k
            end ∧
  (is_Some (specs !! k) → is_Some (m !! k)).
Proof.
  intros H.
  destruct (update_each_lookup f (map_to_list specs) m m' k
              (NoDup_fst_map_to_list specs) H) as [H1 H2].
  destruct (specs !! k) as [sp|] eqn:Hk.
  - destruct (H1 sp) as (a & Ha & Hm'); [by apply elem_of_map_to_list|].
    rewrite Ha, Hm'. split; [done|by eexists].
  - split; [|by intros [? ?]]. apply H2.
    intros ([k' a] & -> & Hin)%list_elem_of_fmap.
    apply elem_of_map_to_list in Hin. simpl in Hk. congruence.
Qed.

(** The loops of [process] succeed as soon as the batch holds every key of
    the request. *)
Lemma update_each_total {A} (f : Spec → A → A) its (m : gmap string A) :
  (∀ k, k ∈ its.*1 → is_Some (m !! k)) →
  ∃ m', update_each f its m = Ok m'.
Proof.
  revert m. induction its as [|[n sp] its IH]; intros m Hm; simpl; [eauto|].
  destruct (Hm n) as [a Ha]; [set_solver|]. rewrite Ha.
  apply IH. intros k Hk. destruct (decide (k = n)) as [->|Hne].
  - rewrite lookup_insert_eq. by eexists.
  - rewrite lookup_insert_ne by done. apply Hm. set_solver.
Qed.

(** What [process] does to a batch: an array or point set of a requested
    key gets the ROI of the request, a point set of a requested key has
    every location moved by [-random_shift], and the entries of other keys
    stay as they are. *)
Lemma process_lookup self batch request batch' :
  process self batch request = Ok batch' →
  (∀ k, arrays batch' !! k
        = match array_specs request !! k with
          | Some sp => reset_array_roi sp <$> arrays batch !! k
          | None => arrays batch !! k
          end) ∧
  (∀ k, points batch' !! k
        = match points_specs request !! k with
          | Some sp =>
              (λ p, shift_points (random_shift self) sp (reset_points_roi sp p))
                <$> points batch !! k
          | None => points batch !! k
          end) ∧
  (∀ k, is_Some (array_specs request !! k) → is_Some (arrays batch !! k)) ∧
  (∀ k, is_Some (points_specs request !! k) → is_Some (points batch !! k)).
Proof.
  unfold process. intros H.
  apply outcome_bind_Ok_inv in H as (a' & Ha & H).
  apply outcome_bind_Ok_inv in H as (p' & Hp & H).
  apply outcome_bind_Ok_inv in H as (p'' & Hp' & H).
  injection H as <-. simpl. split_and!.
  - intros k. by destruct (update_each_map_to_list _ _ _ _ k Ha).
  - intros k. destruct (update_each_map_to_list _ _ _ _ k Hp) as [H1 _].
    destruct (update_each_map_to_list _ _ _ _ k Hp') as [H2 _].
    rewrite H2, H1. destruct (points_specs request !! k); [|done].
    by destruct (points batch !! k).
  - intros k. by destruct (update_each_map_to_list _ _ _ _ k Ha).
  - intros k. by destruct (update_each_map_to_list _ _ _ _ k Hp).
Qed.

End Process.

Section RequestedFrame.

Import RandomLocation Scenario.

(** A point inside the region moved by [s] is, moved back by [s], inside
    the region. *)
Lemma contains_unshift s off shp p :
  contains (mkRoi (add s off) shp) p = true →
  contains (mkRoi off shp) (sub p s) = true.
Proof.
  rewrite !contains_spec. simpl. intros [Hlo Hhi]. split.
  - intros i o x Ho Hx. rewrite lookup_sub in Hx.
    destruct (p !! i) as [pv|] eqn:Hp; [|done].
    destruct (s !! i) as [sv|] eqn:Hs; [|done].
    simpl in Hx. simplify_eq.
    specialize (Hlo i (sv + o) pv). rewrite lookup_add, Hs, Ho in Hlo.
    specialize (Hlo eq_refl Hp). lia.
  - intros i o d x Ho Hd Hx. rewrite lookup_sub in Hx.
    destruct (p !! i) as [pv|] eqn:Hp; [|done].
    destruct (s !! i) as [sv|] eqn:Hs; [|done].
    simpl in Hx. simplify_eq.
    specialize (Hhi i (sv + o) d pv). rewrite lookup_add, Hs, Ho in Hhi.
    specialize (Hhi eq_refl Hd Hp). lia.
Qed.

(** C5. [process] gives every array and every point set of a requested key
    the ROI of the request, moves every location of such a point set by
    minus the recorded shift, leaves the data of the arrays alone, and
    succeeds when the batch holds every requested key. A point of a
    requested point set that the recorded shift puts inside the requested
    ROI, as line 174 asserts of the chosen point, is reported inside the
    requested ROI, at a distance from its origin that is at least 0 and
    less than the requested shape on every axis. With [ensure_nonempty]
    set, though, [prepare] records no shift and no point is chosen: on the
    node that is to keep [pts] non-empty it ends in the [AttributeError]
    of line 147, whatever the random source. *)
Theorem process_restores_requested_frame :
  (∀ self batch request batch',
     process self batch request = Ok batch' →
     (∀ k sp, array_specs request !! k = Some sp →
        ∃ a, arrays batch !! k = Some a ∧
             arrays batch' !! k
               = Some (mkArray (set_roi (roi sp) (array_spec a)) (array_data a))) ∧
     (∀ k sp, points_specs request !! k = Some sp →
        ∃ p p', points batch !! k = Some p ∧ points batch' !! k = Some p' ∧
                roi (points_spec p') = roi sp ∧
                ∀ id, points_data p' !! id
                      = (λ pt, mkPoint (sub (location pt) (random_shift self)))
                          <$> points_data p !! id)) ∧
  (∀ self batch request,
     (∀ k, is_Some (array_specs request !! k) → is_Some (arrays batch !! k)) →
     (∀ k, is_Some (points_specs request !! k) → is_Some (points batch !! k)) →
     ∃ batch', process self batch request = Ok batch') ∧
  (∀ self batch request batch' key sp R pts id pt,
     process self batch request = Ok batch' →
     points_specs request !! key = Some sp → roi sp = Some R →
     points batch !! key = Some pts →
     points_data pts !! id = Some pt →
     contains (mkRoi (add (random_shift self) (get_offset R)) (get_shape R))
              (location pt) = true →
     ∃ pts' reported,
       points batch' !! key = Some pts' ∧
       roi (points_spec pts') = Some R ∧
       points_data pts' !! id = Some (mkPoint reported) ∧
       reported = sub (location pt) (random_shift self) ∧
       contains R reported = true ∧
       ∀ i x o d, reported !! i = Some x → get_offset R !! i = Some o →
                  get_shape R !! i = Some d → 0 ≤ x - o < d) ∧
  (∀ fuel g,
     (∀ node' request' g',
        prepare fuel pointed_node raw_and_points_request g
        ≠ (Ok (node', request'), g')) ∧
     ∃ g', prepare (S fuel) pointed_node raw_and_points_request g
           = (Raise AttributeError, g')).
Proof.
  split_and!.
  - intros self batch request batch' H.
    apply process_lookup in H as (Ha & Hp & Ha' & Hp'). split.
    + intros k sp Hk. destruct (Ha' k) as [a Hak]; [by eexists|].
      exists a. split; [done|]. by rewrite Ha, Hk, Hak.
    + intros k sp Hk. destruct (Hp' k) as [p Hpk]; [by eexists|].
      eexists p, _. split; [done|]. rewrite Hp, Hk, Hpk. simpl.
      split; [done|]. split; [done|]. intros id. simpl.
      by rewrite lookup_fmap.
  - intros self batch request Ha Hp. unfold process.
    destruct (update_each_total reset_array_roi
                (map_to_list (array_specs request)) (arrays batch)) as [a' Ha'].
    { intros k ([k' sp] & -> & Hin)%list_elem_of_fmap.
      apply elem_of_map_to_list in Hin. apply Ha. by eexists. }
    destruct (update_each_total reset_points_roi
                (map_to_list (points_specs request)) (points batch)) as [p' Hp'].
    { intros k ([k' sp] & -> & Hin)%list_elem_of_fmap.
      apply elem_of_map_to_list in Hin. apply Hp. by eexists. }
    destruct (update_each_total (shift_points (random_shift self))
                (map_to_list (points_specs request)) p') as [p'' Hp''].
    { intros k ([k' sp] & -> & Hin)%list_elem_of_fmap.
      apply elem_of_map_to_list in Hin.
      destruct (update_each_map_to_list _ _ _ _ k' Hp') as [Hk' Hsome].
      simpl in *. rewrite Hk', Hin. destruct (Hp k') as [p Hpk]; [by eexists|].
      rewrite Hpk. by eexists. }
    rewrite Ha'. simpl. rewrite Hp'. simpl. rewrite Hp''. simpl. eauto.
  - intros self batch request batch' key sp R pts id pt Hproc Hsp HR Hpts Hid Hin.
    apply process_lookup in Hproc as (_ & Hp & _ & _).
    specialize (Hp key). rewrite Hsp, Hpts in Hp. simpl in Hp.
    eexists _, _. split; [exact Hp|]. simpl. split; [done|].
    split; [by rewrite lookup_fmap, Hid|]. split; [done|].
    apply contains_unshift in Hin. destruct R as [off shp]. simpl in *.
    split; [done|]. apply contains_spec in Hin as [Hlo Hhi]. simpl in *.
    intros i x o d Hx Ho Hd.
    specialize (Hlo i o x Ho Hx). specialize (Hhi i o d x Ho Hd Hx). lia.
  - intros fuel g. split.
    + intros node' request' g'.
      by apply (prepare_points_constraint_never_returns _ _ "pts").
    + destruct (prepare_points_constraint_raises pointed_node
                  raw_and_points_request "pts" (cube 0 10) (cube 0 5)
                  (Some [2; 2; 2]) fuel g) as (s & g' & _ & Hrun);
        [reflexivity|vm_compute; reflexivity|vm_compute; reflexivity|].
      by exists g'.
Qed.

Lemma process_restores_requested_frame_witness :
  ∃ batch',
    process (set_random_shift pointed_node [1; 1; 1]) shifted_batch
            raw_and_points_request = Ok batch' ∧
    (∀ k sp, array_specs raw_and_points_request !! k = Some sp →
       ∃ a, arrays shifted_batch !! k = Some a ∧
            arrays batch' !! k
              = Some (mkArray (set_roi (roi sp) (array_spec a)) (array_data a))) ∧
    (∀ k sp, points_specs raw_and_points_request !! k = Some sp →
       ∃ p p', points shifted_batch !! k = Some p ∧
               points batch' !! k = Some p' ∧
               roi (points_spec p') = roi sp ∧
               ∀ id, points_data p' !! id
                     = (λ pt, mkPoint (sub (location pt) [1; 1; 1]))
                         <$> points_data p !! id).
Proof.
  destruct process_restores_requested_frame as [Hframe _].
  eexists. split; [by vm_compute|].
  apply (Hframe (set_random_shift pointed_node [1; 1; 1]) shifted_batch
           raw_and_points_request).
  by vm_compute.
Defined.

End RequestedFrame.

(** ** [Normalize.process] *)

Section NormalizeFacts.

Import Normalize.

(** A value of the float type [t] lies between 0 and 1. *)
Definition in_unit_interval (t : float_dtype) (x : spec_float) : bool :=
  SFleb F64.zero x && SFleb x (of_int t 1).

(** [v * (1.0/255)] computed in the float type [t], for a byte [v]. *)
Definition scaled_byte (t : float_dtype) (v : Z) : spec_float :=
  SFmul (prec t) (emax t) (of_int t v)
        (round_to t (F64.div (F64.of_Z 1) (F64.of_Z 255))).

Lemma scaled_bytes_in_unit_interval t :
  forallb (λ v, in_unit_interval t (scaled_byte t v)) (seqZ 0 256) = true.
Proof. destruct t; by vm_compute. Qed.

Lemma scaled_byte_in_unit_interval t v :
  0 ≤ v ≤ 255 → in_unit_interval t (scaled_byte t v) = true.
Proof.
  intros Hv. pose proof (scaled_bytes_in_unit_interval t) as H.
  rewrite forallb_forall in H. apply H.
  apply list_elem_of_In, elem_of_seqZ. lia.
Qed.

Lemma foldl_pick {A} (f : A → A → A) (P : A → Prop) v vs :
  (∀ a b, f a b = a ∨ f a b = b) → P v → Forall P vs → P (foldl f v vs).
Proof.
  intros Hf Hv Hvs. revert v Hv. induction Hvs as [|b vs Hb _ IH]; intros v Hv;
    simpl; [done|].
  apply IH. by destruct (Hf v b) as [-> | ->].
Qed.

Lemma np_min_in_unit_interval v vs :
  Forall (λ x, in_unit_interval float32 x = true) (v :: vs) →
  ∃ lo, np_min (v :: vs) = Ok lo ∧ in_unit_interval float32 lo = true.
Proof.
  intros [Hv Hvs]%Forall_cons. eexists. split; [done|].
  apply (foldl_pick _ (λ x, in_unit_interval float32 x = true)); [|done..].
  intros a b. destruct (is_nan a); [by left|].
  destruct (is_nan b); [by right|]. destruct (SFltb b a); auto.
Qed.

Lemma np_max_in_unit_interval v vs :
  Forall (λ x, in_unit_interval float32 x = true) (v :: vs) →
  ∃ hi, np_max (v :: vs) = Ok hi ∧ in_unit_interval float32 hi = true.
Proof.
  intros [Hv Hvs]%Forall_cons. eexists. split; [done|].
  apply (foldl_pick _ (λ x, in_unit_interval float32 x = true)); [|done..].
  intros a b. destruct (is_nan a); [by left|].
  destruct (is_nan b); [by right|]. destruct (SFltb a b); auto.
Qed.

(** A float array keeps its type when multiplied by a scalar of the range
    of float16, as the factors 1.0/255 and 1.0 are. *)
Lemma mul_scalar_in_range t vs f :
  min_float_type f = float16 →
  mul_scalar (FloatArray t vs) f
  = FloatArray t ((λ v, SFmul (prec t) (emax t) v (round_to t f)) <$> vs).
Proof. intros H. unfold mul_scalar. rewrite H. by destruct t. Qed.

(** The factor [process] picks when none is given. *)
Lemma automatic_factor_cases data :
  match data with
  | IntArray uint8 _ =>
      automatic_factor data = Ok (F64.div (F64.of_Z 1) (F64.of_Z 255))
  | FloatArray float32 vs =>
      (vs = [] → automatic_factor data = Raise ValueError) ∧
      (vs ≠ [] → Forall (λ x, in_unit_interval float32 x = true) vs →
       automatic_factor data = Ok (F64.of_Z 1))
  | _ => automatic_factor data = Raise RuntimeError
  end.
Proof.
  destruct data as [[] vs|[] vs]; try done. split.
  - by intros ->.
  - intros Hne Hall. destruct vs as [|v vs]; [done|].
    destruct (np_min_in_unit_interval v vs Hall) as (lo & Hlo & Hlo').
    destruct (np_max_in_unit_interval v vs Hall) as (hi & Hhi & Hhi').
    apply andb_true_iff in Hlo' as [Hlo' _].
    apply andb_true_iff in Hhi' as [_ Hhi'].
    unfold automatic_factor. rewrite Hlo, Hhi.
    unfold mbind, outcome_bind. by rewrite Hlo', Hhi'.
Qed.

(** C9, as the code has it. With [factor=None], [process] replaces the
    data of its array by [data.astype(dtype) * f]: with [f = 1.0/255] for
    uint8 data, and then every value of the result lies in [0, 1] in the
    float type of the result; with [f = 1.0] for float32 data that is not
    empty and has all values in [0, 1]; on float32 data without elements
    the [min()] of line 32 raises a [ValueError]; data of any other dtype
    raises a [RuntimeError]. *)
Theorem normalize_automatic_factor self batch data :
  factor self = None →
  batch !! array self = Some data →
  match data with
  | IntArray uint8 vs =>
      process self batch
      = Ok (<[array self :=
               mul_scalar (astype data (dtype self))
                          (F64.div (F64.of_Z 1) (F64.of_Z 255))]> batch) ∧
      (Forall (λ v, 0 ≤ v ≤ 255) vs →
       ∃ xs, mul_scalar (astype data (dtype self))
                        (F64.div (F64.of_Z 1) (F64.of_Z 255))
             = FloatArray (dtype self) xs ∧
             length xs = length vs ∧
             Forall (λ x, in_unit_interval (dtype self) x = true) xs)
  | FloatArray float32 vs =>
      (vs = [] → process self batch = Raise ValueError) ∧
      (vs ≠ [] → Forall (λ x, in_unit_interval float32 x = true) vs →
       process self batch
       = Ok (<[array self :=
                mul_scalar (astype data (dtype self)) (F64.of_Z 1)]> batch))
  | _ => process self batch = Raise RuntimeError
  end.
Proof.
  intros Hfactor Hdata. unfold process. rewrite Hdata, Hfactor.
  pose proof (automatic_factor_cases data) as Hcases.
  destruct data as [[] vs|[] vs]; try (by rewrite Hcases).
  - rewrite Hcases. split; [done|]. intros Hvs. unfold astype.
    rewrite mul_scalar_in_range by (vm_compute; reflexivity).
    eexists. split; [done|]. rewrite !length_fmap. split; [done|].
    rewrite <- list_fmap_compose. apply Forall_fmap.
    eapply Forall_impl; [exact Hvs|]. intros v Hv. simpl.
    by apply scaled_byte_in_unit_interval.
  - destruct Hcases as [Hempty Hfull]. split.
    + intros Hvs. by rewrite (Hempty Hvs).
    + intros Hne Hall. by rewrite (Hfull Hne Hall).
Qed.

(** C9 as stated fails on a float32 array without elements: all its values
    are in [0, 1], and [process] raises instead of scaling by 1.0. *)
Lemma normalize_empty_float32_raises :
  Forall (λ x, in_unit_interval float32 x = true) [] ∧
  process (init "raw") {[ "raw" := FloatArray float32 [] ]}
  ≠ Ok (<[ "raw" := mul_scalar (astype (FloatArray float32 []) float32)
                              (F64.of_Z 1) ]>
          {[ "raw" := FloatArray float32 [] ]}) ∧
  process (init "raw") {[ "raw" := FloatArray float32 [] ]} = Raise ValueError.
Proof. split_and!; [done|by vm_compute|by vm_compute]. Qed.

(** The sibling paths take an array without elements: uint8 data, and
    float32 data with a factor given. *)
Example normalize_empty_accepted_elsewhere :
  process (init "raw") {[ "raw" := IntArray uint8 [] ]}
  = Ok {[ "raw" := FloatArray float32 [] ]} ∧
  process (mkNode "raw" (Some (F64.of_Z 1)) float32)
          {[ "raw" := FloatArray float32 [] ]}
  = Ok {[ "raw" := FloatArray float32 [] ]}.
Proof. split; by vm_compute. Qed.

Lemma normalize_automatic_factor_witness :
  process (init "raw") {[ "raw" := IntArray uint8 [0; 128; 255] ]}
  = Ok (<[ "raw" := mul_scalar (astype (IntArray uint8 [0; 128; 255]) float32)
                              (F64.div (F64.of_Z 1) (F64.of_Z 255)) ]>
          {[ "raw" := IntArray uint8 [0; 128; 255] ]}) ∧
  (Forall (λ v, 0 ≤ v ≤ 255) [0; 128; 255] →
   ∃ xs, mul_scalar (astype (IntArray uint8 [0; 128; 255]) float32)
                    (F64.div (F64.of_Z 1) (F64.of_Z 255))
         = FloatArray float32 xs ∧
         length xs = length [0; 128; 255] ∧
         Forall (λ x, in_unit_interval float32 x = true) xs).
Proof.
  apply (normalize_automatic_factor (init "raw")
           {[ "raw" := IntArray uint8 [0; 128; 255] ]}
           (IntArray uint8 [0; 128; 255])); by vm_compute.
Defined.

End NormalizeFacts.

(** ** Summed-area tables *)

Section Sums.

Lemma sum_from_ext lo len f g :
  (∀ t, (lo ≤ t < lo + len)%nat → f t = g t) →
  sum_from lo len f = sum_from lo len g.
Proof.
  revert lo. induction len as [|len IH]; intros lo H; simpl; [done|].
  rewrite (H lo) by lia. rewrite (IH (S lo)); [done|].
  intros t Ht. apply H. lia.
Qed.

Lemma sum_from_snoc lo len f :
  sum_from lo (S len) f = sum_from lo len f + f (lo + len)%nat.
Proof.
  revert lo. induction len as [|len IH]; intros lo.
  - simpl. rewrite Nat.add_0_r. lia.
  - change (sum_from lo (S (S len)) f) with (f lo + sum_from (S lo) (S len) f).
    rewrite IH. simpl. rewrite Nat.add_succ_r. lia.
Qed.

Lemma sum_from_app lo len1 len2 f :
  sum_from lo (len1 + len2) f
  = sum_from lo len1 f + sum_from (lo + len1) len2 f.
Proof.
  revert lo. induction len1 as [|len1 IH]; intros lo; simpl.
  - by rewrite Nat.add_0_r.
  - rewrite IH, Nat.add_succ_r. simpl. lia.
Qed.

Lemma sum_to_S f n : sum_to f (S n) = sum_to f n + f n.
Proof. unfold sum_to. by rewrite sum_from_snoc. Qed.

Lemma sum_to_0 f : sum_to f 0 = 0.
Proof. done. Qed.

Lemma sum_to_ext f g n :
  (∀ t, (t < n)%nat → f t = g t) → sum_to f n = sum_to g n.
Proof. intros H. apply sum_from_ext. intros t Ht. apply H. lia. Qed.

(** A sum over [lo <= t < hi] is a difference of two sums from 0. *)
Lemma sum_from_diff lo hi f :
  (lo ≤ hi)%nat → sum_from lo (hi - lo) f = sum_to f hi - sum_to f lo.
Proof.
  intros H. unfold sum_to.
  replace hi with (lo + (hi - lo))%nat at 2 by lia.
  rewrite sum_from_app. simpl. lia.
Qed.

Lemma sum_to_sub f g n :
  sum_to (λ t, f t - g t) n = sum_to f n - sum_to g n.
Proof.
  induction n as [|n IH]; [done|]. rewrite !sum_to_S, IH. lia.
Qed.

Lemma sum_to_add f g n :
  sum_to (λ t, f t + g t) n = sum_to f n + sum_to g n.
Proof.
  induction n as [|n IH]; [done|]. rewrite !sum_to_S, IH. lia.
Qed.

Lemma sum_to_zero n : sum_to (λ _, 0) n = 0.
Proof. induction n as [|n IH]; [done|]. rewrite sum_to_S, IH. lia. Qed.

Lemma sum_to_shift f n : sum_to f (S n) = f 0%nat + sum_to (λ t, f (S t)) n.
Proof.
  induction n as [|n IH]; [done|].
  rewrite sum_to_S, IH, (sum_to_S (λ t, f (S t))). lia.
Qed.

Lemma sum_to_swap (f : nat → nat → Z) n m :
  sum_to (λ i, sum_to (λ j, f i j) m) n
  = sum_to (λ j, sum_to (λ i, f i j) n) m.
Proof.
  induction n as [|n IH].
  - rewrite sum_to_0. transitivity (sum_to (λ _, 0) m);
      [by rewrite sum_to_zero|by apply sum_to_ext].
  - rewrite sum_to_S, IH, <- sum_to_add. apply sum_to_ext.
    intros j _. by rewrite sum_to_S.
Qed.

End Sums.

Section Scans.

Lemma nth_zip_with {A} (f : A → A → A) r1 r2 k d :
  (k < length r1)%nat → (k < length r2)%nat →
  nth k (zip_with f r1 r2) d = f (nth k r1 d) (nth k r2 d).
Proof.
  revert r2 k. induction r1 as [|x r1 IH]; intros [|y r2] [|k]; simpl;
    try lia; [done|].
  intros. apply IH; lia.
Qed.

Lemma nth_fmap {A B} (f : A → B) l k d d' :
  (k < length l)%nat → nth k (f <$> l) d' = f (nth k l d).
Proof.
  revert k. induction l as [|x l IH]; intros [|k]; simpl; try lia; [done|].
  intros. apply IH. lia.
Qed.

Lemma length_scan_from {A} (f : A → A → A) acc l :
  length (scan_from f acc l) = length l.
Proof. revert acc. induction l; intros; simpl; [done|]. by f_equal. Qed.

Lemma length_scan {A} (f : A → A → A) l : length (scan f l) = length l.
Proof. destruct l; simpl; [done|]. by rewrite length_scan_from. Qed.

(** Under an evaluation [ev] that turns [f] into [+] on valid elements,
    entry [j] of a scan evaluates to the sum of the first [j + 1]
    evaluations. *)
Lemma nth_scan_from {A} (f : A → A → A) (V : A → Prop) (ev : A → Z) d l acc j :
  (∀ x y, V x → V y → V (f x y) ∧ ev (f x y) = ev x + ev y) →
  V acc → Forall V l → (j < length l)%nat →
  V (nth j (scan_from f acc l) d) ∧
  ev (nth j (scan_from f acc l) d)
  = ev acc + sum_to (λ t, ev (nth t l d)) (S j).
Proof.
  intros Hf. revert acc j. induction l as [|x l IH]; intros acc j Hacc Hl Hj;
    simpl in *; [lia|].
  apply Forall_cons in Hl as [Hx Hl]. destruct (Hf acc x Hacc Hx) as [Hv He].
  destruct j as [|j].
  - split; [done|]. rewrite He. unfold sum_to. simpl. lia.
  - destruct (IH (f acc x) j Hv Hl ltac:(lia)) as [IHv IHe].
    split; [done|]. rewrite IHe, He, (sum_to_shift _ (S j)). simpl. lia.
Qed.

Lemma nth_scan {A} (f : A → A → A) (V : A → Prop) (ev : A → Z) d l j :
  (∀ x y, V x → V y → V (f x y) ∧ ev (f x y) = ev x + ev y) →
  Forall V l → (j < length l)%nat →
  V (nth j (scan f l) d) ∧
  ev (nth j (scan f l) d) = sum_to (λ t, ev (nth t l d)) (S j).
Proof.
  intros Hf Hl Hj. destruct l as [|x l]; simpl in *; [lia|].
  apply Forall_cons in Hl as [Hx Hl]. destruct j as [|j].
  - split; [done|]. unfold sum_to. simpl. lia.
  - destruct (nth_scan_from f V ev d l x j Hf Hx Hl ltac:(lia)) as [Hv He].
    split; [done|]. rewrite He, (sum_to_shift _ (S j)). done.
Qed.

Lemma scan_from_Forall {A} (f : A → A → A) (P : A → Prop) acc l :
  (∀ x y, P x → P y → P (f x y)) → P acc → Forall P l →
  Forall P (scan_from f acc l).
Proof.
  intros Hf. revert acc. induction l as [|x l IH]; intros acc Hacc Hl; simpl;
    [done|].
  apply Forall_cons in Hl as [Hx Hl]. apply Forall_cons. split; [auto|].
  apply IH; auto.
Qed.

Lemma scan_Forall {A} (f : A → A → A) (P : A → Prop) l :
  (∀ x y, P x → P y → P (f x y)) → Forall P l → Forall P (scan f l).
Proof.
  intros Hf Hl. destruct l as [|x l]; simpl; [done|].
  apply Forall_cons in Hl as [Hx Hl]. apply Forall_cons. split; [done|].
  by apply scan_from_Forall.
Qed.

Lemma cumsum_from_scan acc l : cumsum_from acc l = scan_from Z.add acc l.
Proof. revert acc. induction l as [|x l IH]; intros; simpl; [done|]. by rewrite IH. Qed.

Lemma nth_cumsum l k :
  (k < length l)%nat → nth k (cumsum l) 0 = sum_to (λ t, nth t l 0) (S k).
Proof.
  intros Hk. unfold cumsum. rewrite cumsum_from_scan.
  assert (Forall (λ _ : Z, True) l) as Hall by (by apply Forall_true).
  destruct (nth_scan_from Z.add (λ _, True) id 0 l 0 k) as [_ H]; [done..|].
  exact H.
Qed.

Lemma length_cumsum l : length (cumsum l) = length l.
Proof. unfold cumsum. by rewrite cumsum_from_scan, length_scan_from. Qed.

End Scans.

Section IntegralImage.

Definition plane_shape (n1 n2 : nat) (plane : list (list Z)) : Prop :=
  length plane = n1 ∧ Forall (λ row : list Z, length row = n2) plane.

Lemma rect_plane n0 n1 n2 a i :
  rect n0 n1 n2 a → (i < n0)%nat → plane_shape n1 n2 (nth i a []).
Proof.
  intros [Hlen Hall] Hi.
  apply (proj1 (Forall_nth _ [] a) Hall i). lia.
Qed.

Lemma plane_row n1 n2 plane j :
  plane_shape n1 n2 plane → (j < n1)%nat → length (nth j plane []) = n2.
Proof.
  intros [Hlen Hall] Hj.
  apply (proj1 (Forall_nth _ [] plane) Hall j). lia.
Qed.

Lemma add_rows_shape n2 r1 r2 :
  length r1 = n2 → length r2 = n2 → length (add_rows r1 r2) = n2.
Proof. intros. unfold add_rows. rewrite length_zip_with. lia. Qed.

Lemma add_planes_shape n1 n2 p1 p2 :
  plane_shape n1 n2 p1 → plane_shape n1 n2 p2 →
  plane_shape n1 n2 (add_planes p1 p2).
Proof.
  intros H1 H2. assert (length (add_planes p1 p2) = n1) as Hlen.
  { destruct H1, H2. unfold add_planes. rewrite length_zip_with. lia. }
  split; [done|]. apply (Forall_nth _ []). intros t Ht. unfold add_planes.
  rewrite nth_zip_with by (destruct H1, H2; lia).
  apply add_rows_shape; eapply plane_row; eauto; lia.
Qed.

Lemma rect_cumsum_axis0 n0 n1 n2 a :
  rect n0 n1 n2 a → rect n0 n1 n2 (cumsum_axis0 a).
Proof.
  intros [Hlen Hall]. split; [unfold cumsum_axis0; by rewrite length_scan|].
  apply (scan_Forall add_planes (plane_shape n1 n2)); [|done].
  apply add_planes_shape.
Qed.

Lemma rect_cumsum_axis1 n0 n1 n2 a :
  rect n0 n1 n2 a → rect n0 n1 n2 (cumsum_axis1 a).
Proof.
  intros [Hlen Hall]. split; [unfold cumsum_axis1; by rewrite length_fmap|].
  apply Forall_fmap. eapply Forall_impl; [exact Hall|].
  intros plane [Hl Hrows]. simpl. split; [by rewrite length_scan|].
  apply (scan_Forall add_rows (λ row, length row = n2)); [|done].
  apply add_rows_shape.
Qed.

Lemma rect_cumsum_axis2 n0 n1 n2 a :
  rect n0 n1 n2 a → rect n0 n1 n2 (cumsum_axis2 a).
Proof.
  intros [Hlen Hall]. split; [unfold cumsum_axis2; by rewrite length_fmap|].
  apply Forall_fmap. eapply Forall_impl; [exact Hall|].
  intros plane [Hl Hrows]. simpl. split; [by rewrite length_fmap|].
  apply Forall_fmap. eapply Forall_impl; [exact Hrows|].
  intros row Hrow. simpl. by rewrite length_cumsum.
Qed.

Lemma at3_cumsum_axis0 n0 n1 n2 a i j k :
  rect n0 n1 n2 a → (i < n0)%nat → (j < n1)%nat → (k < n2)%nat →
  at3 (cumsum_axis0 a) i j k = sum_to (λ i', at3 a i' j k) (S i).
Proof.
  intros [Hlen Hall] Hi Hj Hk. unfold at3, cumsum_axis0.
  destruct (nth_scan add_planes (plane_shape n1 n2)
              (λ plane, nth k (nth j plane []) 0) [] a i) as [_ H];
    [|done|lia|exact H].
  intros p1 p2 H1 H2. split; [by apply add_planes_shape|].
  unfold add_planes. rewrite nth_zip_with by (destruct H1, H2; lia).
  unfold add_rows. rewrite nth_zip_with; [done|..];
    erewrite plane_row; eauto.
Qed.

Lemma at3_cumsum_axis1 n0 n1 n2 a i j k :
  rect n0 n1 n2 a → (i < n0)%nat → (j < n1)%nat → (k < n2)%nat →
  at3 (cumsum_axis1 a) i j k = sum_to (λ j', at3 a i j' k) (S j).
Proof.
  intros Hrect Hi Hj Hk. unfold at3, cumsum_axis1.
  rewrite (nth_fmap _ a i []) by (destruct Hrect; lia).
  destruct (rect_plane _ _ _ _ i Hrect Hi) as [Hl Hrows].
  destruct (nth_scan add_rows (λ row, length row = n2)
              (λ row, nth k row 0) [] (nth i a []) j) as [_ H];
    [|done|lia|exact H].
  intros r1 r2 H1 H2. split; [by apply add_rows_shape|].
  unfold add_rows. rewrite nth_zip_with; [done|lia..].
Qed.

Lemma at3_cumsum_axis2 n0 n1 n2 a i j k :
  rect n0 n1 n2 a → (i < n0)%nat → (j < n1)%nat → (k < n2)%nat →
  at3 (cumsum_axis2 a) i j k = sum_to (λ k', at3 a i j k') (S k).
Proof.
  intros Hrect Hi Hj Hk. unfold at3, cumsum_axis2.
  rewrite (nth_fmap _ a i []) by (destruct Hrect; lia).
  pose proof (rect_plane _ _ _ _ i Hrect Hi) as Hplane.
  rewrite (nth_fmap _ (nth i a []) j []) by (destruct Hplane; lia).
  apply nth_cumsum. erewrite plane_row; eauto.
Qed.

(** Entry [(i, j, k)] of the integral image is the sum of the array over
    all indices up to [(i, j, k)]. *)
Lemma at3_integral_image n0 n1 n2 a i j k :
  rect n0 n1 n2 a → (i < n0)%nat → (j < n1)%nat → (k < n2)%nat →
  at3 (integral_image a) i j k = prefix3 a (S i) (S j) (S k).
Proof.
  intros Hrect Hi Hj Hk. unfold integral_image, prefix3.
  rewrite (at3_cumsum_axis2 n0 n1 n2) by
    (try apply rect_cumsum_axis1; try apply rect_cumsum_axis0; done).
  apply sum_to_ext. intros k' Hk'.
  rewrite (at3_cumsum_axis1 n0 n1 n2) by
    (try apply rect_cumsum_axis0; done || lia).
  apply sum_to_ext. intros j' Hj'.
  rewrite (at3_cumsum_axis0 n0 n1 n2) by (done || lia). done.
Qed.

Lemma rect_integral_image n0 n1 n2 a :
  rect n0 n1 n2 a → rect n0 n1 n2 (integral_image a).
Proof.
  intros H. by apply rect_cumsum_axis2, rect_cumsum_axis1, rect_cumsum_axis0.
Qed.

Lemma rect_binarize n0 n1 n2 a : rect n0 n1 n2 a → rect n0 n1 n2 (binarize a).
Proof.
  intros [Hlen Hall]. split; [unfold binarize; by rewrite length_fmap|].
  apply Forall_fmap. eapply Forall_impl; [exact Hall|].
  intros plane [Hl Hrows]. simpl. split; [by rewrite length_fmap|].
  apply Forall_fmap. eapply Forall_impl; [exact Hrows|].
  intros row Hrow. simpl. by rewrite length_fmap.
Qed.

Lemma at3_binarize n0 n1 n2 a i j k :
  rect n0 n1 n2 a → (i < n0)%nat → (j < n1)%nat → (k < n2)%nat →
  at3 (binarize a) i j k = if 0 <? at3 a i j k then 1 else 0.
Proof.
  intros Hrect Hi Hj Hk. unfold at3, binarize.
  rewrite (nth_fmap _ a i []) by (destruct Hrect; lia).
  pose proof (rect_plane _ _ _ _ i Hrect Hi) as Hplane.
  rewrite (nth_fmap _ (nth i a []) j []) by (destruct Hplane; lia).
  rewrite (nth_fmap _ _ k 0); [done|]. erewrite plane_row; eauto.
Qed.

End IntegralImage.

Section Integrate.

Lemma prefix3_0_l a y z : prefix3 a 0 y z = 0.
Proof.
  unfold prefix3. rewrite <- (sum_to_zero z). apply sum_to_ext. intros k _.
  rewrite <- (sum_to_zero y). by apply sum_to_ext.
Qed.

Lemma prefix3_0_m a x z : prefix3 a x 0 z = 0.
Proof.
  unfold prefix3. rewrite <- (sum_to_zero z). by apply sum_to_ext.
Qed.

Lemma prefix3_0_r a x y : prefix3 a x y 0 = 0.
Proof. done. Qed.

(** The same sum with the axes taken in the other order. *)
Lemma prefix3_swap a x y z :
  sum_to (λ i, sum_to (λ j, sum_to (λ k, at3 a i j k) z) y) x
  = prefix3 a x y z.
Proof.
  unfold prefix3.
  transitivity (sum_to (λ i, sum_to (λ k, sum_to (λ j, at3 a i j k) y) z) x).
  { apply sum_to_ext. intros i _. apply sum_to_swap. }
  rewrite sum_to_swap. apply sum_to_ext. intros k _. apply sum_to_swap.
Qed.

Lemma sum_from_diff_ext lo hi f F :
  (lo ≤ hi)%nat → (∀ t, f t = F t) →
  sum_from lo (hi - lo) f = sum_to F hi - sum_to F lo.
Proof.
  intros Hle Hext. rewrite <- sum_from_diff by done.
  apply sum_from_ext. intros t _. apply Hext.
Qed.

(** Inclusion and exclusion: the sum over a box from the sums over the
    eight boxes anchored at the origin. *)
Lemma box_sum_prefix a b0 b1 b2 e0 e1 e2 :
  (b0 ≤ e0)%nat → (b1 ≤ e1)%nat → (b2 ≤ e2)%nat →
  box_sum a (b0, b1, b2) (e0, e1, e2)
  = prefix3 a e0 e1 e2 - prefix3 a b0 e1 e2 - prefix3 a e0 b1 e2
    + prefix3 a b0 b1 e2 - prefix3 a e0 e1 b2 + prefix3 a b0 e1 b2
    + prefix3 a e0 b1 b2 - prefix3 a b0 b1 b2.
Proof.
  intros H0 H1 H2. unfold box_sum. simpl.
  set (H := λ i j z, sum_to (λ k, at3 a i j k) z).
  set (G := λ i y z, sum_to (λ j, H i j z) y).
  rewrite (sum_from_diff_ext b0 e0 _
             (λ i, (G i e1 e2 - G i e1 b2) - (G i b1 e2 - G i b1 b2))); [|done|].
  - rewrite !sum_to_sub. unfold G, H. rewrite !prefix3_swap. lia.
  - intros i.
    rewrite (sum_from_diff_ext b1 e1 _ (λ j, H i j e2 - H i j b2)); [|done|].
    + by rewrite !sum_to_sub.
    + intros j. by apply sum_from_diff.
Qed.

Lemma np_index_in_bounds {A} (l : list A) i d :
  0 ≤ i < Z.of_nat (length l) → np_index l i = Ok (nth (Z.to_nat i) l d).
Proof.
  intros Hi. unfold np_index.
  destruct (Z.ltb_spec i 0); [lia|]. destruct (Z.ltb_spec i 0); [lia|].
  destruct (Z.leb_spec (Z.of_nat (length l)) i); [lia|]. simpl.
  destruct (lookup_lt_is_Some_2 l (Z.to_nat i)) as [x Hx]; [lia|].
  rewrite Hx. f_equal. by rewrite (nth_lookup_Some _ _ _ _ Hx).
Qed.

Lemma get3_in_bounds n0 n1 n2 ii c0 c1 c2 :
  rect n0 n1 n2 ii →
  0 ≤ c0 < Z.of_nat n0 → 0 ≤ c1 < Z.of_nat n1 → 0 ≤ c2 < Z.of_nat n2 →
  get3 ii [c0; c1; c2]
  = Ok (at3 ii (Z.to_nat c0) (Z.to_nat c1) (Z.to_nat c2)).
Proof.
  intros Hrect H0 H1 H2. unfold get3, at3.
  pose proof (rect_plane _ _ _ _ (Z.to_nat c0) Hrect ltac:(lia)) as Hplane.
  pose proof (plane_row _ _ _ (Z.to_nat c1) Hplane ltac:(lia)) as Hrow.
  rewrite (np_index_in_bounds ii c0 []) by (destruct Hrect; lia).
  rewrite (np_index_in_bounds _ c1 []) by (destruct Hplane; lia).
  by rewrite (np_index_in_bounds _ c2 0) by lia.
Qed.

Lemma shape3_rect n0 n1 n2 a :
  rect n0 n1 n2 a → (0 < n0)%nat → (0 < n1)%nat →
  shape3 a = [Z.of_nat n0; Z.of_nat n1; Z.of_nat n2].
Proof.
  intros Hrect H0 H1. unfold shape3.
  pose proof (rect_plane _ _ _ _ 0%nat Hrect H0) as Hplane.
  pose proof (plane_row _ _ _ 0%nat Hplane H1) as Hrow.
  destruct Hrect as [Hlen _], Hplane as [Hlen1 _].
  destruct a as [|plane a]; simpl in *; [lia|].
  destruct plane as [|row plane]; simpl in *; [lia|].
  by rewrite Hlen, Hlen1, Hrow.
Qed.

End Integrate.

Section TableQuery.

(** The index bound of a corner along one axis, and the sign of a corner:
    the corner takes [b - 1] where its mask is set, the end [h] elsewhere. *)
Definition corner_bound (m : bool) (b h : Z) : nat :=
  Z.to_nat (if m then b else h + 1).

Definition corner_sign (m0 m1 m2 : bool) : Z :=
  if Nat.even (length (filter (λ b, b = true) [m0; m1; m2])) then 1 else -1.

Local Opaque get3.

Lemma corner_term_prefix n0 n1 n2 a b0 b1 b2 h0 h1 h2 (m0 m1 m2 : bool) :
  rect n0 n1 n2 a →
  0 ≤ b0 ≤ h0 → h0 < Z.of_nat n0 →
  0 ≤ b1 ≤ h1 → h1 < Z.of_nat n1 →
  0 ≤ b2 ≤ h2 → h2 < Z.of_nat n2 →
  corner_term (integral_image a) [b0; b1; b2] [h0; h1; h2] [m0; m1; m2]
  = Ok (corner_sign m0 m1 m2 *
        prefix3 a (corner_bound m0 b0 h0) (corner_bound m1 b1 h1)
                  (corner_bound m2 b2 h2)).
Proof.
  intros Hrect Hb0 Hh0 Hb1 Hh1 Hb2 Hh2.
  pose proof (rect_integral_image _ _ _ _ Hrect) as Hii.
  unfold corner_term, corner_bound, corner_sign.
  destruct m0, m1, m2; simpl.
  all: repeat match goal with
       | |- context [?x <? 0] => destruct (Z.ltb_spec x 0); simpl; try lia
       end.
  all: try (f_equal;
            match goal with
            | H : ?b - 1 < 0 |- _ => assert (b = 0) as -> by lia
            end;
            change (Z.to_nat 0) with 0%nat;
            rewrite ?prefix3_0_l, ?prefix3_0_m, ?prefix3_0_r; lia).
  all: rewrite (get3_in_bounds n0 n1 n2) by (done || lia);
       rewrite (at3_integral_image n0 n1 n2) by (done || lia);
       do 2 f_equal; f_equal; lia.
Qed.

(** The query of the table returns the sum of the array over the box
    between its two corners, both included. *)
Lemma integrate_box n0 n1 n2 a b0 b1 b2 h0 h1 h2 :
  rect n0 n1 n2 a →
  0 ≤ b0 ≤ h0 → h0 < Z.of_nat n0 →
  0 ≤ b1 ≤ h1 → h1 < Z.of_nat n1 →
  0 ≤ b2 ≤ h2 → h2 < Z.of_nat n2 →
  integrate (integral_image a) [b0; b1; b2] [h0; h1; h2]
  = Ok (box_sum a (Z.to_nat b0, Z.to_nat b1, Z.to_nat b2)
                  (Z.to_nat (h0 + 1), Z.to_nat (h1 + 1), Z.to_nat (h2 + 1))).
Proof.
  intros Hrect Hb0 Hh0 Hb1 Hh1 Hb2 Hh2. unfold integrate.
  rewrite (shape3_rect n0 n1 n2) by (try apply rect_integral_image; done || lia).
  unfold wrap_negative. simpl.
  destruct (Z.ltb_spec b0 0), (Z.ltb_spec b1 0), (Z.ltb_spec b2 0),
    (Z.ltb_spec h0 0), (Z.ltb_spec h1 0), (Z.ltb_spec h2 0); try lia.
  unfold le. simpl.
  destruct (Z.leb_spec b0 h0), (Z.leb_spec b1 h1), (Z.leb_spec b2 h2); try lia.
  simpl.
  rewrite !(corner_term_prefix n0 n1 n2) by (done || lia).
  rewrite box_sum_prefix by lia.
  unfold corner_bound, corner_sign. simpl. f_equal. lia.
Qed.

Lemma masked_in_box_sum n0 n1 n2 data b0 b1 b2 e0 e1 e2 :
  rect n0 n1 n2 data →
  (b0 ≤ e0 ≤ n0)%nat → (b1 ≤ e1 ≤ n1)%nat → (b2 ≤ e2 ≤ n2)%nat →
  masked_in data (b0, b1, b2) (e0, e1, e2)
  = box_sum (binarize data) (b0, b1, b2) (e0, e1, e2).
Proof.
  intros Hrect H0 H1 H2. unfold masked_in, box_sum. simpl.
  apply sum_from_ext. intros i Hi.
  apply sum_from_ext. intros j Hj.
  apply sum_from_ext. intros k Hk.
  symmetry. apply (at3_binarize n0 n1 n2); (done || lia).
Qed.

(** The query of lines 199-203 on the table built in [setup] counts the
    masked-in voxels of the region: for a region [b <= index < e] inside
    the mask array it returns the number of voxels of the mask above 0. *)
Lemma integrate_counts_masked_in n0 n1 n2 data b0 b1 b2 e0 e1 e2 :
  rect n0 n1 n2 data →
  0 ≤ b0 < e0 → e0 ≤ Z.of_nat n0 →
  0 ≤ b1 < e1 → e1 ≤ Z.of_nat n1 →
  0 ≤ b2 < e2 → e2 ≤ Z.of_nat n2 →
  integrate (integral_image (binarize data)) [b0; b1; b2]
            (sub [e0; e1; e2] [1; 1; 1])
  = Ok (masked_in data (Z.to_nat b0, Z.to_nat b1, Z.to_nat b2)
                       (Z.to_nat e0, Z.to_nat e1, Z.to_nat e2)).
Proof.
  intros Hrect Hb0 He0 Hb1 He1 Hb2 He2.
  change (sub [e0; e1; e2] [1; 1; 1]) with [e0 - 1; e1 - 1; e2 - 1].
  rewrite (integrate_box n0 n1 n2) by (try apply rect_binarize; done || lia).
  rewrite !Z.sub_add.
  by rewrite (masked_in_box_sum n0 n1 n2) by (done || lia).
Qed.

End TableQuery.

Section MaskConstraint.

Import RandomLocation Scenario.





(** The first pass of that run: the shift [(1,1,1)] has ratio one half and
    is rejected. *)
Example half_masked_shift_rejected :
  mask_ratio fully_masked_node mask_request [1; 1; 1]
    = Ok (F64.div (F64.of_Z 4) (F64.of_Z 8)) ∧
  F64.leb (min_masked fully_masked_node) (F64.div (F64.of_Z 4) (F64.of_Z 8))
    = false ∧
  sample_once fully_masked_node mask_request (cube 0 2) (cube 0 2)
              (Some [1; 1; 1]) ones_then_zeros
    = (Ok ([1; 1; 1], false, true), mkRng (tape ones_then_zeros) 3).
Proof. split_and!; by vm_compute. Qed.

End MaskConstraint.

(** ** The dtype of the table *)

Section TableDtype.

Import RandomLocation.

(** The width in bits of an integer type. *)
Definition dtype_bits (t : int_dtype) : Z :=
  match t with
  | uint8 | int8 => 8
  | uint16 | int16 => 16
  | uint32 | int32 => 32
  | uint64 | int64 => 64
  end.

Lemma sum_to_bounds f n c :
  0 ≤ c → (∀ t, (t < n)%nat → 0 ≤ f t ≤ c) →
  0 ≤ sum_to f n ≤ Z.of_nat n * c.
Proof.
  intros Hc. induction n as [|n IH]; intros Hf; [unfold sum_to; simpl; lia|].
  rewrite sum_to_S. specialize (IH (λ t Ht, Hf t ltac:(lia))).
  specialize (Hf n ltac:(lia)). nia.
Qed.

(** The mask has at most as many masked-in voxels as it has voxels, so no
    entry of the table exceeds the size of the mask: the table can be
    taken over the integers, none of its entries wraps around in the dtype
    chosen in lines 73-78. *)
Lemma integral_entries_fit n0 n1 n2 data i j k :
  rect n0 n1 n2 data → (i < n0)%nat → (j < n1)%nat → (k < n2)%nat →
  data_size data < 2 ^ 64 →
  0 ≤ at3 (integral_image (binarize data)) i j k ≤ data_size data ∧
  data_size data < 2 ^ dtype_bits (choose_integral_dtype (data_size data)).
Proof.
  intros Hrect Hi Hj Hk Hsize.
  assert (data_size data = Z.of_nat n0 * (Z.of_nat n1 * Z.of_nat n2)) as Hds.
  { unfold data_size. rewrite (shape3_rect n0 n1 n2) by (done || lia).
    simpl. lia. }
  split.
  - rewrite (at3_integral_image n0 n1 n2) by (try apply rect_binarize; done).
    unfold prefix3.
    assert (∀ k', (k' < S k)%nat →
              0 ≤ sum_to (λ j', sum_to (λ i', at3 (binarize data) i' j' k') (S i))
                         (S j)
                ≤ Z.of_nat (S j) * Z.of_nat (S i)) as Hinner.
    { intros k' Hk'. apply sum_to_bounds; [lia|]. intros j' Hj'.
      replace (Z.of_nat (S i)) with (Z.of_nat (S i) * 1) by lia.
      apply sum_to_bounds; [lia|]. intros i' Hi'.
      rewrite (at3_binarize n0 n1 n2) by (done || lia).
      destruct (0 <? at3 data i' j' k'); lia. }
    pose proof (sum_to_bounds _ (S k) (Z.of_nat (S j) * Z.of_nat (S i))
                  ltac:(lia) Hinner) as Hb.
    assert (Z.of_nat (S j) * Z.of_nat (S i) ≤ Z.of_nat n1 * Z.of_nat n0)
      by (apply Z.mul_le_mono_nonneg; lia).
    assert (Z.of_nat (S k) * (Z.of_nat (S j) * Z.of_nat (S i))
            ≤ Z.of_nat n2 * (Z.of_nat n1 * Z.of_nat n0))
      by (apply Z.mul_le_mono_nonneg; lia).
    rewrite Hds. lia.
  - unfold choose_integral_dtype.
    destruct (Z.ltb_spec (data_size data) (2 ^ 16));
      destruct (Z.ltb_spec (data_size data) (2 ^ 32)); simpl; lia.
Qed.

End TableDtype.

(** ** [RandomLocation.prepare]: the shift drawn and the request sent upstream *)

Section ShiftDrawn.

Import RandomLocation Scenario.

(** X1. Without a points constraint the shift [prepare] records is the
    coordinate drawn in the region of feasible shifts divided by the least
    common multiple of the voxel sizes of the requested arrays, between
    its begin and its end minus one on every axis, multiplied by that
    least common multiple; a request without arrays has no such multiple
    and the coordinate is drawn in the region itself. *)
Theorem prepare_shift_quantised fuel self request g node' request' g'
    sr lsr lcm :
  ensure_nonempty self = None →
  shift_regions self request = Ok (sr, lsr, lcm) →
  prepare fuel self request g = (Ok (node', request'), g') →
  lsr = match lcm with Some v => div sr v | None => sr end ∧
  ∃ c, random_shift node' = match lcm with Some v => mul c v | None => c end ∧
       length c = min (length (get_begin lsr)) (length (get_end lsr)) ∧
       ∀ i x y ci, get_begin lsr !! i = Some x → get_end lsr !! i = Some y →
                   c !! i = Some ci → x ≤ ci ≤ y - 1.
Proof.
  intros Hnone Hreg H.
  apply prepare_Ok_inv in H as (sr' & lsr' & lcm' & s & Hreg' & Hloop & _ & _ & ->).
  rewrite Hreg in Hreg'. injection Hreg' as <- <- <-.
  apply shift_regions_Ok_inv in Hreg as (_ & _ & _ & Hlsr). split; [done|].
  apply sample_loop_Ok_inv in Hloop as (g0 & Honce).
  apply sample_once_Ok_inv in Honce as (init & g1 & Hdraw & Hpt & _).
  unfold ensure_point in Hpt. rewrite Hnone in Hpt. injection Hpt as <- _.
  unfold draw_shift in Hdraw.
  apply bind_Ok_inv in Hdraw as (c & g2 & Hc & Hret).
  injection Hret as <- _. exists c. split; [done|].
  apply random_coordinate_range in Hc as [Hlen Hc]. split; [done|].
  intros i x y ci Hx Hy Hci. specialize (Hc i x y ci Hx Hy Hci). lia.
Qed.

Lemma prepare_shift_quantised_witness :
  ∃ node' request' g',
    prepare 1 (plain_node 2) (raw_request 10) (mkRng (λ _, 7) 0)
      = (Ok (node', request'), g') ∧
    ∃ c, random_shift node' = mul c [2; 2; 2] ∧
         length c = 3%nat ∧
         ∀ i x y ci, [0; 0; 0] !! i = Some x → [5; 5; 5] !! i = Some y →
                     c !! i = Some ci → x ≤ ci ≤ y - 1.
Proof.
  assert (∃ r, prepare 1 (plain_node 2) (raw_request 10) (mkRng (λ _, 7) 0) = r)
    as [[[[node' request']| |] g'] Hrun]; [by eexists|..].
  - exists node', request', g'. split; [exact Hrun|].
    destruct (prepare_shift_quantised 1 (plain_node 2) (raw_request 10)
                (mkRng (λ _, 7) 0) node' request' g'
                (cube 0 10) (cube 0 5) (Some [2; 2; 2]))
      as (_ & c & H1 & H2 & H3);
      [vm_compute; reflexivity|vm_compute; reflexivity|exact Hrun|].
    exists c. split; [exact H1|]. split; [exact H2|exact H3].
  - vm_compute in Hrun. discriminate Hrun.
  - vm_compute in Hrun. discriminate Hrun.
Defined.

(** The request [prepare] sends upstream, key by key. *)
Lemma prepare_request_lookup fuel self request g node' request' g' (k : Key) :
  prepare fuel self request g = (Ok (node', request'), g') →
  request' !! k
  = (λ sp, set_roi (flip shift (random_shift node') <$> roi sp) sp)
      <$> request !! k.
Proof.
  intros H.
  apply prepare_Ok_inv in H as (sr & lsr & lcm & s & _ & _ & Ha & Hp & ->).
  simpl.
  assert (∀ (m m' : gmap string Spec) n,
            shift_specs_loop (upstream_roi self) s (map_to_list m) m = Ok m' →
            m' !! n = (λ sp, set_roi (flip shift s <$> roi sp) sp) <$> m !! n)
    as Hloop.
  { intros m m' n Hm.
    destruct (shift_specs_loop_lookup _ _ _ _ _ n (NoDup_fst_map_to_list m) Hm)
      as [Hin Hout].
    destruct (m !! n) as [sp|] eqn:Hn.
    - destruct (Hin sp) as (r & u & Hr & _ & _ & ->);
        [by apply elem_of_map_to_list|].
      simpl. by rewrite Hr.
    - rewrite Hout; [done|].
      intros ([n' sp] & -> & Hin')%list_elem_of_fmap.
      apply elem_of_map_to_list in Hin'. simpl in Hn. congruence. }
  destruct k as [n|n]; unfold lookup, provider_spec_lookup; by apply Hloop.
Qed.

(** X2. [prepare] moves every ROI of the request by the same vector, the
    shift it records, and changes nothing else: the request sent upstream
    has the keys of the request, with their voxel sizes and the shapes of
    their ROIs, and the offsets of any two of its ROIs differ along every
    axis as they did in the request. *)
Theorem prepare_moves_every_roi_alike fuel self request g node' request' g' :
  prepare fuel self request g = (Ok (node', request'), g') →
  (∀ k : Key,
     request' !! k
     = (λ sp, set_roi (flip shift (random_shift node') <$> roi sp) sp)
         <$> request !! k) ∧
  (∀ (k : Key) sp', request' !! k = Some sp' →
     ∃ sp r, request !! k = Some sp ∧ roi sp = Some r ∧
             voxel_size sp' = voxel_size sp ∧
             roi sp' = Some (mkRoi (add (offset r) (random_shift node'))
                                   (shape r))) ∧
  (∀ (k1 k2 : Key) sp1 sp2 r1 r2 sp1' sp2' r1' r2' i x1 x2,
     request !! k1 = Some sp1 → roi sp1 = Some r1 →
     request !! k2 = Some sp2 → roi sp2 = Some r2 →
     request' !! k1 = Some sp1' → roi sp1' = Some r1' →
     request' !! k2 = Some sp2' → roi sp2' = Some r2' →
     offset r1' !! i = Some x1 → offset r2' !! i = Some x2 →
     ∃ y1 y2, offset r1 !! i = Some y1 ∧ offset r2 !! i = Some y2 ∧
              x1 - x2 = y1 - y2).
Proof.
  intros H.
  assert (∀ (k : Key) sp', request' !! k = Some sp' →
     ∃ sp r, request !! k = Some sp ∧ roi sp = Some r ∧
             voxel_size sp' = voxel_size sp ∧
             roi sp' = Some (mkRoi (add (offset r) (random_shift node'))
                                   (shape r))) as Hkey.
  { intros k sp' Hk.
    rewrite (prepare_request_lookup _ _ _ _ _ _ _ k H) in Hk.
    destruct (request !! k) as [sp|] eqn:Hsp; [|done].
    destruct (prepare_shifted_rois _ _ _ _ _ _ _ k sp H Hsp)
      as (r & _ & Hr & _).
    injection Hk as <-. exists sp, r. rewrite Hr. done. }
  split_and!; [intros k; by eapply prepare_request_lookup|done|].
  intros k1 k2 sp1 sp2 r1 r2 sp1' sp2' r1' r2' i x1 x2
    Hk1 Hr1 Hk2 Hr2 Hk1' Hr1' Hk2' Hr2' Hx1 Hx2.
  destruct (Hkey k1 sp1' Hk1') as (q1 & o1 & Hq1 & Ho1 & _ & Hroi1).
  destruct (Hkey k2 sp2' Hk2') as (q2 & o2 & Hq2 & Ho2 & _ & Hroi2).
  simplify_eq. simpl in Hx1, Hx2. rewrite lookup_add in Hx1, Hx2.
  destruct (offset r1 !! i) as [y1|]; [|done].
  destruct (offset r2 !! i) as [y2|]; [|done].
  destruct (random_shift node' !! i) as [d|]; [|done].
  simpl in Hx1, Hx2. simplify_eq. exists y1, y2. split_and!; [done..|lia].
Qed.

End ShiftDrawn.

(** ** [RandomLocation.prepare]: the region of feasible shifts and the provided ROIs *)

Section FeasibleShifts.

Import RandomLocation Scenario.

Ltac three_dims H :=
  let H1 := fresh in let H2 := fresh in
  destruct H as [H1 H2];
  match type of H1 with
  | length (offset ?r) = _ =>
      destruct r as [[|? [|? [|? [|? ?]]]] [|? [|? [|? [|? ?]]]]];
      try discriminate H1; try discriminate H2; clear H1 H2
  end.

Ltac bool_to_Z :=
  rewrite ?andb_true_iff, ?Z.leb_le, ?Z.ltb_lt in *.

(** X3. The region of feasible shifts of a key (line 115), for
    three-dimensional ROIs: a shift lies in it exactly when the requested
    ROI moved by the shift begins at or after the begin of the provided
    ROI and ends strictly before its end. Such a shift keeps the request
    inside the provided ROI; the shift that would make the two ends meet
    does so too, and is not in the region. *)
Theorem type_shift_roi_spec provided request s :
  dims 3 provided → dims 3 request → length s = 3%nat →
  (contains (type_shift_roi provided request) s = true ↔
   le (get_begin provided) (get_begin (shift request s)) = true ∧
   lt (get_end (shift request s)) (get_end provided) = true) ∧
  (contains (type_shift_roi provided request) s = true →
   contains_roi provided (shift request s) = true) ∧
  (get_end (shift request s) = get_end provided →
   contains (type_shift_roi provided request) s = false).
Proof.
  intros Hp Hr Hs. three_dims Hp. three_dims Hr.
  destruct s as [|s0 [|s1 [|s2 [|? ?]]]]; try done.
  unfold contains, contains_roi, type_shift_roi, le, lt. simpl.
  split_and!.
  - bool_to_Z. lia.
  - bool_to_Z. lia.
  - intros [= H0 H1 H2]. apply not_true_iff_false. bool_to_Z. lia.
Qed.

Lemma type_shift_roi_dims provided request :
  dims 3 provided → dims 3 request → dims 3 (type_shift_roi provided request).
Proof. intros Hp Hr. three_dims Hp. three_dims Hr. done. Qed.

(** A shift of the region of a key keeps the request inside the provided
    ROI, on the axes the shift has. *)
Lemma type_shift_roi_sound provided request s :
  dims 3 provided → dims 3 request →
  contains (type_shift_roi provided request) s = true →
  contains_roi provided (shift request s) = true.
Proof.
  intros Hp Hr. three_dims Hp. three_dims Hr.
  destruct s as [|s0 [|s1 [|s2 [|s3 s]]]];
    unfold contains, contains_roi, type_shift_roi, le, lt; simpl;
    bool_to_Z; lia.
Qed.

Lemma contains_intersect_3 a b s :
  dims 3 a → dims 3 b →
  contains (intersect a b) s = true →
  contains a s = true ∧ contains b s = true.
Proof.
  intros Ha Hb. three_dims Ha. three_dims Hb.
  destruct s as [|s0 [|s1 [|s2 [|s3 s]]]];
    unfold contains, intersect, le, lt; simpl; bool_to_Z; lia.
Qed.

(** The shift drawn at the head of a pass lies in the region of feasible
    shifts, when the offset of the region is a multiple of the least
    common multiple of the voxel sizes. *)
Lemma draw_shift_contained sr lcm g s g' :
  draw_shift (match lcm with Some v => div sr v | None => sr end) lcm g
    = (Ok s, g') →
  match lcm with
  | Some v =>
      Forall (λ w, 0 < w) v ∧ mul (Coord.div (offset sr) v) v = offset sr
  | None => True
  end →
  contains sr s = true.
Proof.
  unfold draw_shift. intros H Hlcm.
  apply bind_Ok_inv in H as (c & g1 & Hc & Hret). injection Hret as <- _.
  apply random_coordinate_range in Hc as [Hlen Hc].
  apply contains_spec. destruct lcm as [v|].
  - destruct Hlcm as [Hpos Halign].
    assert (∀ i o x, offset sr !! i = Some o → mul c v !! i = Some x →
              ∃ w ci, v !! i = Some w ∧ c !! i = Some ci ∧ x = ci * w ∧
                      0 < w ∧ o `div` w * w = o ∧ o `div` w ≤ ci ∧
                      ∀ d, shape sr !! i = Some d →
                           ci ≤ o `div` w + d `div` w - 1) as Haxis.
    { intros i o x Ho Hx. rewrite lookup_mul in Hx.
      destruct (c !! i) as [ci|] eqn:Hci; [|done].
      destruct (v !! i) as [w|] eqn:Hw; [|done].
      simpl in Hx. injection Hx as <-. exists w, ci.
      assert (0 < w) as Hwpos
        by (by apply (proj1 (Forall_lookup _ _) Hpos i w)).
      assert (o `div` w * w = o) as Ho'.
      { assert (mul (Coord.div (offset sr) v) v !! i = Some o) as Hm
          by (by rewrite Halign).
        rewrite lookup_mul, lookup_div, Ho, Hw in Hm. simpl in Hm.
        by injection Hm. }
      assert (is_Some (get_end (div sr v) !! i)) as [y Hy].
      { apply lookup_lt_is_Some. apply lookup_lt_Some in Hci. lia. }
      assert (get_begin (div sr v) !! i = Some (o `div` w)) as Hb.
      { unfold get_begin, div. simpl. by rewrite lookup_div, Ho, Hw. }
      pose proof (Hc i _ _ _ Hb Hy Hci) as Hrange.
      split_and!; try done; [lia|].
      intros d Hd. unfold get_end, div in Hy. simpl in Hy.
      rewrite lookup_add, !lookup_div, Ho, Hd, Hw in Hy. simpl in Hy.
      injection Hy as <-. lia. }
    split.
    + intros i o x Ho Hx.
      destruct (Haxis i o x Ho Hx) as (w & ci & _ & _ & -> & Hw & Ho' & Hlo & _).
      nia.
    + intros i o d x Ho Hd Hx.
      destruct (Haxis i o x Ho Hx) as (w & ci & _ & _ & -> & Hw & Ho' & _ & Hhi).
      specialize (Hhi d Hd).
      pose proof (Z.mul_div_le d w Hw). nia.
  - split.
    + intros i o x Ho Hx.
      assert (is_Some (get_end sr !! i)) as [y Hy].
      { apply lookup_lt_is_Some. apply lookup_lt_Some in Hx. lia. }
      specialize (Hc i o y x Ho Hy Hx). lia.
    + intros i o d x Ho Hd Hx.
      assert (get_end sr !! i = Some (o + d)) as Hy
        by (unfold get_end; by rewrite lookup_add, Ho, Hd).
      specialize (Hc i o _ x Ho Hy Hx). lia.
Qed.

(** A shift of the region the loop of lines 107-120 computes lies in the
    region of every requested key. *)
Lemma shift_roi_loop_members us its acc sr s :
  shift_roi_loop us its acc = Ok (Some sr) →
  (∀ a, acc = Some a → dims 3 a) →
  (∀ k sp r, (k, sp) ∈ its → roi sp = Some r → dims 3 r) →
  (∀ k sp provided p, (k, sp) ∈ its → us !! k = Some provided →
                      roi provided = Some p → dims 3 p) →
  contains sr s = true →
  (∀ a, acc = Some a → contains a s = true) ∧
  ∀ k sp, (k, sp) ∈ its →
    ∃ provided p r, us !! k = Some provided ∧ roi provided = Some p ∧
                    roi sp = Some r ∧
                    contains (type_shift_roi p r) s = true.
Proof.
  revert acc. induction its as [|[k sp] its IH]; intros acc; simpl.
  - intros [= ->] _ _ _ Hs. split; [by intros a [= <-]|].
    intros k sp H. by apply elem_of_nil in H.
  - destruct (us !! k) as [provided|] eqn:Hk; [|done].
    destruct (roi provided) as [p|] eqn:Hp; [|done].
    destruct (roi sp) as [r|] eqn:Hr; [|done].
    intros Hloop Hacc Hreq Hprov Hs.
    assert (dims 3 (type_shift_roi p r)) as Ht.
    { apply type_shift_roi_dims.
      - apply (Hprov k sp provided p); [left|done..].
      - apply (Hreq k sp r); [left|done]. }
    destruct (IH _ Hloop) as [Hnew Hrest]; try done.
    { intros a [= <-]. destruct acc as [a0|]; [|done].
      apply intersect_dims; [by apply Hacc|done]. }
    { intros k' sp' r' Hin. apply (Hreq k' sp'). by right. }
    { intros k' sp' provided' p' Hin. apply (Hprov k' sp'). by right. }
    assert (contains (type_shift_roi p r) s = true ∧
            ∀ a, acc = Some a → contains a s = true) as [Hin Hold].
    { destruct acc as [a0|].
      - destruct (contains_intersect_3 a0 (type_shift_roi p r) s) as [? ?];
          [by apply Hacc|done|by apply Hnew|].
        split; [done|]. by intros a [= <-].
      - split; [by apply Hnew|done]. }
    split; [done|].
    intros k' sp' [[= -> ->]|Hin']%elem_of_cons; [|by apply Hrest].
    by exists provided, p, r.
Qed.

(** The shift [prepare] records lies in the region of feasible shifts when
    the offset of the region is on the grid of the voxel sizes; with a
    points constraint nothing is recorded. *)
Lemma prepare_shift_contained fuel self request g node' request' g'
    sr lsr lcm :
  shift_regions self request = Ok (sr, lsr, lcm) →
  prepare fuel self request g = (Ok (node', request'), g') →
  (ensure_nonempty self = None →
   match lcm with
   | Some v =>
       Forall (λ w, 0 < w) v ∧ mul (Coord.div (offset sr) v) v = offset sr
   | None => True
   end) →
  contains sr (random_shift node') = true.
Proof.
  intros Hreg H Halign.
  apply prepare_Ok_inv in H as (sr' & lsr' & lcm' & s & Hreg' & Hloop & _ & _ & ->).
  rewrite Hreg in Hreg'. injection Hreg' as <- <- <-. simpl.
  apply shift_regions_Ok_inv in Hreg as (_ & _ & _ & ->).
  apply sample_loop_Ok_inv in Hloop as (g0 & Honce).
  apply sample_once_Ok_inv in Honce as (init & g1 & Hdraw & Hpt & _).
  destruct (ensure_nonempty self) as [key|] eqn:Hkey.
  - by rewrite (ensure_point_raises _ _ _ _ _ key Hkey) in Hpt.
  - unfold ensure_point in Hpt. rewrite Hkey in Hpt. injection Hpt as <- _.
    eapply draw_shift_contained; [exact Hdraw|by apply Halign].
Qed.

(** X4. The promise of the docstring, key by key: "the batch request roi
    lies entirely inside the provider's roi". When all ROIs are
    three-dimensional, every ROI of the request sent upstream lies inside
    the ROI the upstream provider has for its key, not only inside the
    total ROI that line 224 asserts. Without a points constraint this
    needs the offset of the region of feasible shifts to be a multiple of
    the least common multiple of the (positive) voxel sizes, since the
    shift is drawn in the region divided by it. *)
Theorem prepare_request_inside_provided fuel self request g node' request' g'
    sr lsr lcm :
  shift_regions self request = Ok (sr, lsr, lcm) →
  prepare fuel self request g = (Ok (node', request'), g') →
  Forall (λ item, ∀ r, roi item.2 = Some r → dims 3 r) (items request) →
  Forall (λ item, ∀ r, roi item.2 = Some r → dims 3 r)
         (items (upstream_spec self)) →
  (ensure_nonempty self = None →
   match lcm with
   | Some v =>
       Forall (λ w, 0 < w) v ∧ mul (Coord.div (offset sr) v) v = offset sr
   | None => True
   end) →
  ∀ (k : Key) sp, request !! k = Some sp →
    ∃ provided p r,
      upstream_spec self !! k = Some provided ∧ roi provided = Some p ∧
      roi sp = Some r ∧
      contains_roi p (shift r (random_shift node')) = true ∧
      request' !! k = Some (set_roi (Some (shift r (random_shift node'))) sp).
Proof.
  intros Hreg H Hreq Hprov Halign k sp Hk.
  pose proof (prepare_shift_contained _ _ _ _ _ _ _ _ _ _ Hreg H Halign) as Hin.
  destruct (prepare_shifted_rois _ _ _ _ _ _ _ k sp H Hk)
    as (r & up & Hr & _ & _ & Hk').
  apply shift_regions_Ok_inv in Hreg as (_ & Hloop & _ & _).
  destruct (shift_roi_loop_members _ _ _ _ (random_shift node') Hloop)
    as [_ Hmembers]; try done.
  - intros k0 sp0 r0 Hin0. by apply (proj1 (Forall_forall _ _) Hreq (k0, sp0)).
  - intros k0 sp0 provided p Hin0 Hk0.
    apply (proj1 (Forall_forall _ _) Hprov (k0, provided)).
    by apply elem_of_items.
  - destruct (Hmembers k sp (elem_of_items _ _ _ Hk))
      as (provided & p & r' & Hup & Hp & Hr' & Ht).
    rewrite Hr in Hr'. injection Hr' as <-.
    exists provided, p, r. split_and!; try done.
    apply type_shift_roi_sound; [| |done].
    + apply (proj1 (Forall_forall _ _) Hprov (k, provided));
        [by apply elem_of_items|done].
    + by apply (proj1 (Forall_forall _ _) Hreq (k, sp)); [apply elem_of_items|].
Qed.




End FeasibleShifts.

Section FeasibleShiftsExamples.

Import RandomLocation Scenario.

Lemma type_shift_roi_spec_witness :
  (contains (type_shift_roi (cube 0 20) (cube 0 10)) [3; 4; 5] = true ↔
   le (get_begin (cube 0 20)) (get_begin (shift (cube 0 10) [3; 4; 5])) = true ∧
   lt (get_end (shift (cube 0 10) [3; 4; 5])) (get_end (cube 0 20)) = true) ∧
  (contains (type_shift_roi (cube 0 20) (cube 0 10)) [3; 4; 5] = true →
   contains_roi (cube 0 20) (shift (cube 0 10) [3; 4; 5]) = true) ∧
  (get_end (shift (cube 0 10) [3; 4; 5]) = get_end (cube 0 20) →
   contains (type_shift_roi (cube 0 20) (cube 0 10)) [3; 4; 5] = false).
Proof.
  apply (type_shift_roi_spec (cube 0 20) (cube 0 10) [3; 4; 5]);
    [split; reflexivity|split; reflexivity|reflexivity].
Defined.

Lemma prepare_moves_every_roi_alike_witness :
  ∃ node' request' g',
    prepare 1 (plain_node 2) (raw_request 10) (mkRng (λ _, 7) 0)
      = (Ok (node', request'), g') ∧
    ∀ k : Key,
      request' !! k
      = (λ sp, set_roi (flip shift (random_shift node') <$> roi sp) sp)
          <$> raw_request 10 !! k.
Proof.
  assert (∃ r, prepare 1 (plain_node 2) (raw_request 10) (mkRng (λ _, 7) 0) = r)
    as [[[[node' request']| |] g'] Hrun]; [by eexists|..].
  - exists node', request', g'. split; [exact Hrun|].
    destruct (prepare_moves_every_roi_alike _ _ _ _ _ _ _ Hrun) as [H _].
    exact H.
  - vm_compute in Hrun. discriminate Hrun.
  - vm_compute in Hrun. discriminate Hrun.
Defined.

Lemma prepare_request_inside_provided_witness :
  ∃ node' request' g',
    prepare 1 (plain_node 2) (raw_request 10) (mkRng (λ _, 7) 0)
      = (Ok (node', request'), g') ∧
    ∀ (k : Key) sp, raw_request 10 !! k = Some sp →
      ∃ provided p r,
        upstream_spec (plain_node 2) !! k = Some provided ∧
        roi provided = Some p ∧ roi sp = Some r ∧
        contains_roi p (shift r (random_shift node')) = true ∧
        request' !! k = Some (set_roi (Some (shift r (random_shift node'))) sp).
Proof.
  assert (∃ r, prepare 1 (plain_node 2) (raw_request 10) (mkRng (λ _, 7) 0) = r)
    as [[[[node' request']| |] g'] Hrun]; [by eexists|..].
  - exists node', request', g'. split; [exact Hrun|].
    apply (prepare_request_inside_provided 1 (plain_node 2) (raw_request 10)
             (mkRng (λ _, 7) 0) node' request' g'
             (cube 0 10) (cube 0 5) (Some [2; 2; 2]));
      [vm_compute; reflexivity|exact Hrun| | |].
    + vm_compute. apply Forall_cons. split; [|by apply Forall_nil].
      intros r [= <-]. split; reflexivity.
    + vm_compute. apply Forall_cons. split; [|by apply Forall_nil].
      intros r [= <-]. split; reflexivity.
    + intros _. split; [repeat constructor|reflexivity].
  - vm_compute in Hrun. discriminate Hrun.
  - vm_compute in Hrun. discriminate Hrun.
Defined.


End FeasibleShiftsExamples.

(** ** [RandomLocation.prepare]: passes that cannot succeed *)

Section Retries.

Import RandomLocation Scenario MoreScenarios.

(** X6. With a mask constraint the request has to name the mask array:
    when it does not, no run of [prepare] gives a shift, and without a
    points constraint the first pass of the loop ends in the [KeyError] of
    [request.array_specs[self.mask]] (line 190), after the shift was
    drawn. *)
Theorem prepare_needs_mask_in_request self request m :
  mask_active self = true →
  mask self = Some m →
  array_specs request !! m = None →
  (∀ fuel g node' request' g',
     prepare fuel self request g ≠ (Ok (node', request'), g')) ∧
  (ensure_nonempty self = None →
   ∀ sr lsr lcm,
     shift_regions self request = Ok (sr, lsr, lcm) →
     lt (get_begin lsr) (get_end lsr) = true →
     ∀ fuel g, ∃ g', prepare (S fuel) self request g = (Raise KeyError, g')).
Proof.
  intros Hactive Hmask Hreq.
  assert (∀ s, check_mask self request s = Raise KeyError) as Hcheck.
  { intros s. unfold check_mask, mask_ratio, mask_roi_in_array.
    by rewrite Hactive, Hmask, Hreq. }
  split.
  - intros fuel g node' request' g' H.
    apply prepare_Ok_inv in H as (sr & lsr & lcm & s & _ & Hloop & _).
    apply sample_loop_Ok_inv in Hloop as (g0 & Honce).
    apply sample_once_Ok_inv in Honce as (init & g1 & _ & _ & Hm).
    by rewrite Hcheck in Hm.
  - intros Hnone sr lsr lcm Hreg Hlt fuel g.
    destruct (draw_shift_total lsr lcm g Hlt) as (s & g1 & Hdraw).
    exists g1. unfold prepare. rewrite bind_lift, Hreg, bind_run. simpl.
    rewrite bind_run. unfold sample_once. rewrite bind_run, Hdraw.
    unfold ensure_point. rewrite Hnone, bind_run.
    unfold mret at 1, M_ret at 1. rewrite bind_lift, Hcheck. done.
Qed.

Lemma prepare_needs_mask_in_request_witness :
  (∀ fuel g node' request' g',
     prepare fuel raw_masked_node (raw_request 2) g
     ≠ (Ok (node', request'), g')) ∧
  ∃ g', prepare 1 raw_masked_node (raw_request 2) (mkRng (λ _, 0) 0)
        = (Raise KeyError, g').
Proof.
  destruct (prepare_needs_mask_in_request raw_masked_node (raw_request 2)
              "mask") as [Hnever Hraise]; [vm_compute; reflexivity..|].
  split; [exact Hnever|].
  apply (Hraise eq_refl (cube 0 2) (cube 0 2) (Some [1; 1; 1]));
    vm_compute; reflexivity.
Defined.

(** Drawing a coordinate between [b] and [e - 1] fails when [b < e] does
    not hold on some axis. *)
Lemma random_coordinate_empty b e g :
  lt b e = false → ∃ g', random_coordinate (-1) b e g = (Raise ValueError, g').
Proof.
  revert e g. induction b as [|x b IH]; intros [|y e] g; simpl; try done.
  unfold lt. simpl. intros H. rewrite bind_run. unfold randint at 1.
  destruct (Z.ltb_spec (y + -1) x) as [Hlt|Hge]; [by eexists|].
  destruct (Z.ltb_spec x y) as [_|?]; [|lia]. simpl in H.
  rewrite bind_run.
  destruct (IH e (mkRng (tape g) (S (cursor g))) H) as [g' ->]. by eexists.
Qed.

(** X7. A region of feasible shifts can pass the assertion of line 124,
    its size being positive, and still leave nothing to draw from once it
    is divided by the least common multiple of the voxel sizes: when the
    begin of the divided region is not below its end on every axis,
    [prepare] ends in the [ValueError] of [randint] (line 137) on its first
    draw, whatever the constraints of the node. *)
Theorem prepare_thin_region_raises self request sr lsr lcm :
  shift_regions self request = Ok (sr, lsr, lcm) →
  lt (get_begin lsr) (get_end lsr) = false →
  0 < size sr ∧
  ∀ fuel g, ∃ g', prepare (S fuel) self request g = (Raise ValueError, g').
Proof.
  intros Hreg Hlt. split; [by apply shift_regions_Ok_inv in Hreg as (_ & _ & ? & _)|].
  intros fuel g. unfold prepare. rewrite bind_lift, Hreg, bind_run. simpl.
  rewrite bind_run. unfold sample_once. rewrite bind_run.
  unfold draw_shift. rewrite bind_run.
  destruct (random_coordinate_empty _ _ g Hlt) as [g' ->]. by eexists.
Qed.

(** A request of shape 19 against the upstream of shape 20 at voxel size
    2: the region of feasible shifts has one element, the divided region
    none. *)
Lemma prepare_thin_region_raises_witness :
  0 < size (cube 0 1) ∧
  ∀ fuel g, ∃ g',
    prepare (S fuel) (plain_node 2) (raw_request 19) g = (Raise ValueError, g').
Proof.
  apply (prepare_thin_region_raises (plain_node 2) (raw_request 19)
           (cube 0 1) (cube 0 0) (Some [2; 2; 2])); vm_compute; reflexivity.
Defined.

End Retries.

(** ** The mask table and the mask ratio *)

Section MaskTable.

Import RandomLocation Scenario.

Lemma sum_from_bounds lo len f c :
  0 ≤ c → (∀ t, 0 ≤ f t ≤ c) → 0 ≤ sum_from lo len f ≤ Z.of_nat len * c.
Proof.
  intros Hc Hf. revert lo. induction len as [|len IH]; intros lo;
    [simpl; lia|].
  cbn [sum_from]. rewrite Nat2Z.inj_succ, Z.mul_succ_l.
  specialize (IH (S lo)). specialize (Hf lo). lia.
Qed.

Lemma masked_in_bounds data b0 b1 b2 e0 e1 e2 :
  0 ≤ masked_in data (b0, b1, b2) (e0, e1, e2)
    ≤ Z.of_nat (e0 - b0) * (Z.of_nat (e1 - b1) * Z.of_nat (e2 - b2)).
Proof.
  unfold masked_in. simpl.
  apply sum_from_bounds; [apply Z.mul_nonneg_nonneg; lia|]. intros i.
  apply sum_from_bounds; [lia|]. intros j.
  replace (Z.of_nat (e2 - b2)) with (Z.of_nat (e2 - b2) * 1) by lia.
  apply sum_from_bounds; [lia|]. intros k.
  destruct (0 <? at3 data i j k); lia.
Qed.

(** X8. The mask ratio is a fraction. For a requested region of the mask
    that lies inside the mask array, the table query of lines 199-203
    returns the number of masked-in voxels of the region, which is at
    least 0 and at most the size of the region, and [mask_ratio] is the
    quotient of the two. *)
Theorem mask_ratio_is_a_fraction self request s data n0 n1 n2
    b0 b1 b2 d0 d1 d2 :
  mask_integral self = integral_image (binarize data) →
  rect n0 n1 n2 data →
  mask_roi_in_array self request s = Ok (mkRoi [b0; b1; b2] [d0; d1; d2]) →
  0 ≤ b0 → 0 < d0 → b0 + d0 ≤ Z.of_nat n0 →
  0 ≤ b1 → 0 < d1 → b1 + d1 ≤ Z.of_nat n1 →
  0 ≤ b2 → 0 < d2 → b2 + d2 ≤ Z.of_nat n2 →
  ∃ num_masked_in,
    num_masked_in
    = masked_in data (Z.to_nat b0, Z.to_nat b1, Z.to_nat b2)
        (Z.to_nat (b0 + d0), Z.to_nat (b1 + d1), Z.to_nat (b2 + d2)) ∧
    0 ≤ num_masked_in ≤ size (mkRoi [b0; b1; b2] [d0; d1; d2]) ∧
    mask_ratio self request s
    = Ok (F64.div (F64.of_Z num_masked_in)
                  (F64.of_Z (size (mkRoi [b0; b1; b2] [d0; d1; d2])))).
Proof.
  intros Htable Hrect Hregion Hb0 Hd0 He0 Hb1 Hd1 He1 Hb2 Hd2 He2.
  eexists. split; [reflexivity|].
  assert (size (mkRoi [b0; b1; b2] [d0; d1; d2]) = d0 * (d1 * d2)) as Hsize
    by (unfold size; simpl; lia).
  split.
  - rewrite Hsize.
    pose proof (masked_in_bounds data (Z.to_nat b0) (Z.to_nat b1) (Z.to_nat b2)
                  (Z.to_nat (b0 + d0)) (Z.to_nat (b1 + d1))
                  (Z.to_nat (b2 + d2))) as H.
    replace (Z.of_nat (Z.to_nat (b0 + d0) - Z.to_nat b0)) with d0 in H by lia.
    replace (Z.of_nat (Z.to_nat (b1 + d1) - Z.to_nat b1)) with d1 in H by lia.
    replace (Z.of_nat (Z.to_nat (b2 + d2) - Z.to_nat b2)) with d2 in H by lia.
    done.
  - unfold mask_ratio. rewrite Hregion, Htable.
    unfold mbind at 1, outcome_bind at 1.
    change (get_begin (mkRoi [b0; b1; b2] [d0; d1; d2])) with [b0; b1; b2].
    change (get_end (mkRoi [b0; b1; b2] [d0; d1; d2]))
      with [b0 + d0; b1 + d1; b2 + d2].
    rewrite (integrate_counts_masked_in n0 n1 n2) by (done || lia).
    unfold mbind, outcome_bind.
    destruct (Z.eqb_spec (size (mkRoi [b0; b1; b2] [d0; d1; d2])) 0) as [Hz|_];
      [|done].
    rewrite Hsize in Hz. nia.
Qed.

(** X9. The table [setup] builds for an active mask constraint: its dtype
    is chosen by the size of the mask, uint16 below 2^16 elements, uint32
    below 2^32 and uint64 otherwise, and every entry of the table is at
    least 0 and at most the size of the mask, so below 2 to the width of
    that dtype: no entry wraps around (for a mask of fewer than 2^64
    elements). *)
Theorem setup_mask_table_fits_dtype self node m ms n0 n1 n2 :
  setup self = Ok node →
  mask self = Some m →
  F64.ltb F64.zero (min_masked self) = true →
  provider_spec (upstream self) !! ArrayKey m = Some ms →
  rect n0 n1 n2 (request_array (upstream self) m ms) →
  data_size (request_array (upstream self) m ms) < 2 ^ 64 →
  mask_integral_dtype node
  = (if data_size (request_array (upstream self) m ms) <? 2 ^ 16 then uint16
     else if data_size (request_array (upstream self) m ms) <? 2 ^ 32
          then uint32 else uint64) ∧
  ∀ i j k, (i < n0)%nat → (j < n1)%nat → (k < n2)%nat →
    0 ≤ at3 (mask_integral node) i j k
      ≤ data_size (request_array (upstream self) m ms) ∧
    at3 (mask_integral node) i j k < 2 ^ dtype_bits (mask_integral_dtype node).
Proof.
  intros Hsetup Hm Hlt Hms Hrect Hsize. unfold setup in Hsetup.
  destruct (total_roi (upstream self)); [|done]. rewrite Hm, Hlt, Hms in Hsetup.
  simpl in Hsetup. injection Hsetup as <-. simpl. split.
  - unfold choose_integral_dtype.
    by repeat case_match.
  - intros i j k Hi Hj Hk.
    destruct (integral_entries_fit n0 n1 n2 _ i j k Hrect Hi Hj Hk Hsize)
      as [Hentry Hfit].
    split; [done|lia].
Qed.

Lemma setup_mask_table_fits_dtype_witness :
  mask_integral_dtype fully_masked_node = uint16 ∧
  ∀ i j k, (i < 4)%nat → (j < 4)%nat → (k < 4)%nat →
    0 ≤ at3 (mask_integral fully_masked_node) i j k ≤ data_size half_mask ∧
    at3 (mask_integral fully_masked_node) i j k
    < 2 ^ dtype_bits (mask_integral_dtype fully_masked_node).
Proof.
  apply (setup_mask_table_fits_dtype
           (init F64.one (Some "mask") None mask_upstream) fully_masked_node
           "mask" (mkSpec (Some (cube 0 4)) [1; 1; 1]) 4 4 4);
    try (vm_compute; reflexivity).
  split; [reflexivity|]. repeat constructor.
Defined.

Lemma mask_ratio_is_a_fraction_witness :
  ∃ num_masked_in,
    num_masked_in = masked_in half_mask (1%nat, 1%nat, 1%nat)
                                        (3%nat, 3%nat, 3%nat) ∧
    0 ≤ num_masked_in ≤ size (cube 1 2) ∧
    mask_ratio fully_masked_node mask_request [1; 1; 1]
    = Ok (F64.div (F64.of_Z num_masked_in) (F64.of_Z (size (cube 1 2)))).
Proof.
  apply (mask_ratio_is_a_fraction fully_masked_node mask_request [1; 1; 1]
           half_mask 4 4 4 1 1 1 2 2 2);
    try (vm_compute; reflexivity); try lia.
  split; [reflexivity|]. repeat constructor.
Defined.

End MaskTable.

(** ** [RandomLocation.process]: errors and what is left alone *)

Section ProcessFrame.

Import RandomLocation Scenario.

(** A loop of [process] fails only on a key the batch lacks, with a
    [KeyError]. *)
Lemma update_each_Raise_inv {A} (f : Spec → A → A) its (m : gmap string A) e :
  update_each f its m = Raise e →
  e = KeyError ∧ ∃ k, k ∈ its.*1 ∧ m !! k = None.
Proof.
  revert m. induction its as [|[n sp] its IH]; intros m; simpl; [done|].
  destruct (m !! n) as [a|] eqn:Hn.
  - intros H. destruct (IH _ H) as (-> & k & Hk & Hnone). split; [done|].
    exists k. split; [set_solver|].
    destruct (decide (k = n)) as [->|Hne].
    + by rewrite lookup_insert_eq in Hnone.
    + by rewrite lookup_insert_ne in Hnone.
  - intros [= <-]. split; [done|]. exists n. split; [set_solver|done].
Qed.

Lemma update_each_fuel {A} (f : Spec → A → A) its (m : gmap string A) :
  update_each f its m ≠ OutOfFuel.
Proof.
  revert m. induction its as [|[n sp] its IH]; intros m; simpl; [done|].
  destruct (m !! n); [apply IH|done].
Qed.

Lemma elem_of_fst_map_to_list {A} (m : gmap string A) k :
  k ∈ (map_to_list m).*1 ↔ is_Some (m !! k).
Proof.
  rewrite list_elem_of_fmap. split.
  - intros ([k' a] & -> & Hin). apply elem_of_map_to_list in Hin. by eexists.
  - intros [a Ha]. exists (k, a). split; [done|]. by apply elem_of_map_to_list.
Qed.

(** X10. [process] either succeeds, and then the batch holds an array for
    every array key of the request and a point set for every points key,
    or it fails with a [KeyError] on a requested key the batch lacks; it
    has no other outcome. *)
Theorem process_fails_only_on_missing_key self batch request :
  match process self batch request with
  | Ok _ =>
      (∀ k, is_Some (array_specs request !! k) → is_Some (arrays batch !! k)) ∧
      (∀ k, is_Some (points_specs request !! k) → is_Some (points batch !! k))
  | Raise e =>
      e = KeyError ∧
      ∃ k, (is_Some (array_specs request !! k) ∧ arrays batch !! k = None) ∨
           (is_Some (points_specs request !! k) ∧ points batch !! k = None)
  | OutOfFuel => False
  end.
Proof.
  destruct (process self batch request) as [batch'|e|] eqn:H.
  - apply process_lookup in H as (_ & _ & Ha & Hp). done.
  - unfold process in H.
    destruct (update_each reset_array_roi _ (arrays batch)) as [a'|e1|] eqn:Ha;
      simpl in H.
    + destruct (update_each reset_points_roi _ (points batch)) as [p'|e2|] eqn:Hp;
        simpl in H.
      * destruct (update_each (shift_points _) _ p') as [p''|e3|] eqn:Hp';
          simpl in H; try done.
        injection H as <-.
        apply update_each_Raise_inv in Hp' as (_ & k & Hk & Hnone).
        apply elem_of_fst_map_to_list in Hk.
        destruct (update_each_map_to_list _ _ _ _ k Hp) as [Hk' Hsome].
        destruct Hk as [sp Hsp]. rewrite Hsp in Hk'.
        destruct (Hsome ltac:(by eexists)) as [p Hpk].
        rewrite Hpk in Hk'. simpl in Hk'. congruence.
      * injection H as <-.
        apply update_each_Raise_inv in Hp as (-> & k & Hk & Hnone).
        apply elem_of_fst_map_to_list in Hk. split; [done|]. exists k. by right.
      * done.
    + injection H as <-.
      apply update_each_Raise_inv in Ha as (-> & k & Hk & Hnone).
      apply elem_of_fst_map_to_list in Hk. split; [done|]. exists k. by left.
    + done.
  - unfold process in H.
    pose proof (update_each_fuel reset_array_roi
                  (map_to_list (array_specs request)) (arrays batch)) as Ha.
    destruct (update_each reset_array_roi _ (arrays batch)) as [a'|e1|];
      simpl in H; [|done..].
    pose proof (update_each_fuel reset_points_roi
                  (map_to_list (points_specs request)) (points batch)) as Hp.
    destruct (update_each reset_points_roi _ (points batch)) as [p'|e2|];
      simpl in H; [|done..].
    pose proof (update_each_fuel (shift_points (random_shift self))
                  (map_to_list (points_specs request)) p') as Hp'.
    destruct (update_each (shift_points _) _ p') as [p''|e3|]; done.
Qed.

(** X11. What [process] leaves alone: the entries of keys the request does
    not name, the set of keys of the batch, the data and the voxel size of
    every array, and the ids of the points of every point set. *)
Theorem process_touches_only_requested self batch request batch' :
  process self batch request = Ok batch' →
  (∀ k, array_specs request !! k = None →
        arrays batch' !! k = arrays batch !! k) ∧
  (∀ k, points_specs request !! k = None →
        points batch' !! k = points batch !! k) ∧
  dom (arrays batch') = dom (arrays batch) ∧
  dom (points batch') = dom (points batch) ∧
  (∀ k a', arrays batch' !! k = Some a' →
     ∃ a, arrays batch !! k = Some a ∧ array_data a' = array_data a ∧
          voxel_size (array_spec a') = voxel_size (array_spec a)) ∧
  (∀ k p', points batch' !! k = Some p' →
     ∃ p, points batch !! k = Some p ∧
          dom (points_data p') = dom (points_data p) ∧
          voxel_size (points_spec p') = voxel_size (points_spec p)).
Proof.
  intros H. apply process_lookup in H as (Ha & Hp & _ & _). split_and!.
  - intros k Hk. by rewrite Ha, Hk.
  - intros k Hk. by rewrite Hp, Hk.
  - apply set_eq. intros k. rewrite !elem_of_dom, Ha.
    destruct (array_specs request !! k); [|done]. by rewrite fmap_is_Some.
  - apply set_eq. intros k. rewrite !elem_of_dom, Hp.
    destruct (points_specs request !! k); [|done]. by rewrite fmap_is_Some.
  - intros k a' Hk. rewrite Ha in Hk.
    destruct (array_specs request !! k) as [sp|]; [|by exists a'].
    destruct (arrays batch !! k) as [a|]; [|done]. injection Hk as <-.
    by exists a.
  - intros k p' Hk. rewrite Hp in Hk.
    destruct (points_specs request !! k) as [sp|]; [|by exists p'].
    destruct (points batch !! k) as [p|]; [|done]. injection Hk as <-.
    exists p. split; [done|]. simpl. split; [|done]. apply dom_fmap_L.
Qed.

Lemma coord_add_comm a b : add a b = add b a.
Proof.
  revert b. induction a as [|x a IH]; intros [|y b]; simpl; try done.
  unfold add in *. simpl. f_equal; [lia|apply IH].
Qed.

Lemma coord_add_sub_cancel p s :
  length s = length p → add (sub p s) s = p.
Proof.
  revert s. induction p as [|x p IH]; intros [|y s]; simpl; try done.
  intros [= Hlen]. unfold add, sub in *. simpl. f_equal; [lia|by apply IH].
Qed.

(** X12. [process] undoes the shift for every point, not only for the one
    [prepare] chose: a point of a requested point set that lies in the
    requested ROI moved by [random_shift], where the request sent upstream
    asked for it, is reported at [location - random_shift], inside the
    requested ROI; and adding the shift to the reported location gives the
    upstream location back. *)
Theorem process_reports_points_in_requested_roi
    self batch request batch' key sp R pts id pt :
  process self batch request = Ok batch' →
  points_specs request !! key = Some sp →
  roi sp = Some R →
  points batch !! key = Some pts →
  points_data pts !! id = Some pt →
  contains (shift R (random_shift self)) (location pt) = true →
  ∃ pts',
    points batch' !! key = Some pts' ∧
    points_data pts' !! id
      = Some (mkPoint (sub (location pt) (random_shift self))) ∧
    contains R (sub (location pt) (random_shift self)) = true ∧
    (length (random_shift self) = length (location pt) →
     add (sub (location pt) (random_shift self)) (random_shift self)
     = location pt).
Proof.
  intros H Hsp HR Hpts Hid Hin.
  apply process_lookup in H as (_ & Hp & _ & _).
  specialize (Hp key). rewrite Hsp, Hpts in Hp. simpl in Hp.
  eexists. split; [exact Hp|]. simpl. split_and!.
  - by rewrite lookup_fmap, Hid.
  - destruct R as [off shp]. unfold shift in Hin. simpl in Hin.
    rewrite coord_add_comm in Hin. by apply contains_unshift.
  - apply coord_add_sub_cancel.
Qed.

Lemma process_reports_points_in_requested_roi_witness :
  ∃ batch' pts',
    process (set_random_shift pointed_node [1; 1; 1]) shifted_batch
            raw_and_points_request = Ok batch' ∧
    points batch' !! "pts" = Some pts' ∧
    points_data pts' !! 1 = Some (mkPoint (sub [5; 5; 5] [1; 1; 1])) ∧
    contains (cube 0 10) (sub [5; 5; 5] [1; 1; 1]) = true.
Proof.
  assert (∃ batch', process (set_random_shift pointed_node [1; 1; 1])
                      shifted_batch raw_and_points_request = Ok batch')
    as [batch' Hrun].
  { eexists. vm_compute. reflexivity. }
  destruct (process_reports_points_in_requested_roi
              (set_random_shift pointed_node [1; 1; 1]) shifted_batch
              raw_and_points_request batch' "pts"
              (mkSpec (Some (cube 0 10)) []) (cube 0 10)
              (mkPoints (mkSpec (Some (cube 1 10)) [])
                        {[ 1 := mkPoint [5; 5; 5] ]})
              1 (mkPoint [5; 5; 5]) Hrun)
    as (pts' & H1 & H2 & H3 & _); [vm_compute; reflexivity..|].
  exists batch', pts'.
  split; [exact Hrun|]. split; [exact H1|]. split; [exact H2|exact H3].
Defined.

Lemma process_touches_only_requested_witness :
  ∃ batch',
    process (set_random_shift pointed_node [1; 1; 1]) shifted_batch
            (raw_request 10) = Ok batch' ∧
    (∀ k, points_specs (raw_request 10) !! k = None →
          points batch' !! k = points shifted_batch !! k) ∧
    dom (arrays batch') = dom (arrays shifted_batch).
Proof.
  assert (∃ batch', process (set_random_shift pointed_node [1; 1; 1])
                      shifted_batch (raw_request 10) = Ok batch')
    as [batch' Hrun].
  { eexists. vm_compute. reflexivity. }
  destruct (process_touches_only_requested _ _ _ _ Hrun)
    as (_ & Hp & Ha & _).
  exists batch'. split; [exact Hrun|]. split; [exact Hp|exact Ha].
Defined.

End ProcessFrame.

(** ** [Normalize.process]: outcomes *)

Section NormalizeOutcomes.

Import Normalize.

Lemma min_step_nonneg a b :
  SFleb F64.zero
        (if is_nan a then a else if is_nan b then b
         else if SFltb b a then b else a)
  = SFleb F64.zero a && SFleb F64.zero b.
Proof.
  destruct a as [[]|[]| |[] ma ea], b as [[]|[]| |[] mb eb]; try done;
    unfold is_nan; cbv beta iota;
    unfold SFltb, SFcompare; repeat case_match; done.
Qed.

Lemma fold_min_nonneg vs v :
  SFleb F64.zero
        (foldl (λ a b, if is_nan a then a else if is_nan b then b
                       else if SFltb b a then b else a) v vs)
  = forallb (SFleb F64.zero) (v :: vs).
Proof.
  revert v. induction vs as [|b vs IH]; intros v; simpl.
  - by rewrite andb_true_r.
  - rewrite IH. simpl. rewrite min_step_nonneg. by rewrite andb_assoc.
Qed.

Lemma max_step_bounded m e a b :
  SFleb (if is_nan a then a else if is_nan b then b
         else if SFltb a b then b else a) (S754_finite false m e)
  = SFleb a (S754_finite false m e) && SFleb b (S754_finite false m e).
Proof.
  destruct a as [[]|[]| |[] ma ea], b as [[]|[]| |[] mb eb]; try done;
    unfold is_nan; cbv beta iota; unfold SFltb, SFleb, SFcompare;
    change (Pos.compare_cont Eq) with Pos.compare;
    repeat match goal with
    | |- context [(?x ?= ?y)%Z] => destruct (Z.compare_spec x y)
    | |- context [(?x ?= ?y)%positive] => destruct (Pos.compare_spec x y)
    end; simpl; try done; try lia.
Qed.

Lemma fold_max_bounded m e vs v :
  SFleb (foldl (λ a b, if is_nan a then a else if is_nan b then b
                       else if SFltb a b then b else a) v vs)
        (S754_finite false m e)
  = forallb (λ x, SFleb x (S754_finite false m e)) (v :: vs).
Proof.
  revert v. induction vs as [|b vs IH]; intros v; simpl.
  - by rewrite andb_true_r.
  - rewrite IH. simpl. rewrite max_step_bounded. by rewrite andb_assoc.
Qed.

Lemma forallb_in_unit_interval t vs :
  forallb (in_unit_interval t) vs
  = forallb (SFleb F64.zero) vs && forallb (λ x, SFleb x (of_int t 1)) vs.
Proof.
  induction vs as [|v vs IH]; simpl; [done|]. rewrite IH.
  unfold in_unit_interval. by destruct (SFleb F64.zero v), (SFleb v _),
    (forallb (SFleb F64.zero) vs).
Qed.

(** The factor chosen for float32 data, case by case. *)
Lemma automatic_factor_float32 vs :
  automatic_factor (FloatArray float32 vs) =
  match vs with
  | [] => Raise ValueError
  | _ => if forallb (in_unit_interval float32) vs then Ok (F64.of_Z 1)
         else Raise AssertionError
  end.
Proof.
  destruct vs as [|v vs]; [done|].
  rewrite forallb_in_unit_interval.
  unfold automatic_factor, np_min, np_max, mbind, outcome_bind.
  rewrite fold_min_nonneg.
  destruct (forallb (SFleb F64.zero) (v :: vs)); [|done].
  change (of_int float32 1) with (S754_finite false 8388608 (-23)).
  rewrite fold_max_bounded. by destruct (forallb _ (v :: vs)).
Qed.

(** X13. With [factor=None], float32 data is scaled by 1.0 exactly when it
    is not empty and every value [v] satisfies [0 <= v] and [v <= 1]; data
    with a value below 0, above 1 or NaN stops at the assertion of line 32,
    and data without elements at its [min()]. *)
Theorem normalize_float32_outcomes self batch vs :
  factor self = None →
  batch !! array self = Some (FloatArray float32 vs) →
  process self batch =
  match vs with
  | [] => Raise ValueError
  | _ =>
      if forallb (in_unit_interval float32) vs
      then Ok (<[array self :=
                  mul_scalar (astype (FloatArray float32 vs) (dtype self))
                             (F64.of_Z 1)]> batch)
      else Raise AssertionError
  end.
Proof.
  intros Hfactor Hdata. unfold process. rewrite Hdata, Hfactor.
  rewrite automatic_factor_float32. destruct vs as [|v vs]; [done|].
  by destruct (forallb _ (v :: vs)).
Qed.

(** A value above 1 among values in range: the assertion fails. *)
Lemma normalize_float32_outcomes_witness :
  process (init "raw")
          {[ "raw" := FloatArray float32 [of_int float32 0; of_int float32 2] ]}
  = Raise AssertionError.
Proof.
  apply (normalize_float32_outcomes (init "raw")
           {[ "raw" := FloatArray float32 [of_int float32 0; of_int float32 2] ]}
           [of_int float32 0; of_int float32 2]); by vm_compute.
Defined.

Lemma np_size_mul_scalar a f : np_size (mul_scalar a f) = np_size a.
Proof. destruct a; simpl; by rewrite length_fmap. Qed.

Lemma np_size_astype a t : np_size (astype a t) = np_size a.
Proof. destruct a; simpl; by rewrite length_fmap. Qed.

(** X14. [process] fails with a [KeyError] exactly when the batch lacks the
    array of the node; with a factor given it succeeds on data of every
    dtype, the dtype and the values being looked at only to choose a
    factor; and when it succeeds it has replaced the array of the node, and
    only that one, by an array with as many elements as before. *)
Theorem normalize_changes_only_its_array self batch :
  (process self batch = Raise KeyError ↔ batch !! array self = None) ∧
  (∀ f data, factor self = Some f → batch !! array self = Some data →
     process self batch
     = Ok (<[array self := mul_scalar (astype data (dtype self)) f]> batch)) ∧
  ∀ batch', process self batch = Ok batch' →
    dom batch' = dom batch ∧
    (∀ k, k ≠ array self → batch' !! k = batch !! k) ∧
    ∃ data result,
      batch !! array self = Some data ∧
      batch' !! array self = Some result ∧
      np_size result = np_size data.
Proof.
  unfold process. destruct (batch !! array self) as [data|] eqn:Hdata.
  - split_and!.
    + split; [|done].
      destruct (factor self) as [f|]; [done|].
      destruct data as [[] vs|[] vs]; try done.
      rewrite automatic_factor_float32. destruct vs; [done|].
      by destruct (forallb _ _).
    + intros f data' Hf [= <-]. by rewrite Hf.
    + intros batch' H. apply outcome_bind_Ok_inv in H as (f & _ & [= <-]).
      split_and!.
      * apply set_eq. intros k. rewrite !elem_of_dom.
        destruct (decide (k = array self)) as [->|Hne].
        -- rewrite lookup_insert_eq, Hdata. split; by eexists.
        -- by rewrite lookup_insert_ne.
      * intros k Hk. by rewrite lookup_insert_ne.
      * exists data, (mul_scalar (astype data (dtype self)) f).
        split; [done|]. split; [by rewrite lookup_insert_eq|].
        by rewrite np_size_mul_scalar, np_size_astype.
  - split_and!; done.
Qed.

(** X15. A second pass over the output of the node. Automatic
    normalisation of uint8 data gives an array of the configured dtype;
    when that is float32, the default, the node accepts its own output and
    scales it by 1.0; an output of type float16 or float64 it refuses with
    a [RuntimeError]. *)
Theorem normalize_accepts_its_float32_output self batch vs :
  factor self = None →
  batch !! array self = Some (IntArray uint8 vs) →
  vs ≠ [] →
  Forall (λ v, 0 ≤ v ≤ 255) vs →
  ∃ batch1 xs,
    process self batch = Ok batch1 ∧
    batch1 !! array self = Some (FloatArray (dtype self) xs) ∧
    match dtype self with
    | float32 =>
        process self batch1
        = Ok (<[array self :=
                 mul_scalar (astype (FloatArray float32 xs) float32)
                            (F64.of_Z 1)]> batch1)
    | _ => process self batch1 = Raise RuntimeError
    end.
Proof.
  intros Hfactor Hdata Hne Hvs.
  exists (<[array self :=
             mul_scalar (astype (IntArray uint8 vs) (dtype self))
                        (F64.div (F64.of_Z 1) (F64.of_Z 255))]> batch),
         (scaled_byte (dtype self) <$> vs).
  assert (mul_scalar (astype (IntArray uint8 vs) (dtype self))
                     (F64.div (F64.of_Z 1) (F64.of_Z 255))
          = FloatArray (dtype self) (scaled_byte (dtype self) <$> vs))
    as Hdata_shape.
  { unfold astype. rewrite mul_scalar_in_range by (vm_compute; reflexivity).
    by rewrite <- list_fmap_compose. }
  split_and!.
  - unfold process. by rewrite Hdata, Hfactor.
  - by rewrite lookup_insert_eq, Hdata_shape.
  - rewrite Hdata_shape.
    destruct (dtype self) eqn:Hdtype; unfold process;
      rewrite lookup_insert_eq, Hfactor; try done.
    rewrite automatic_factor_float32.
    destruct vs as [|v vs]; [done|].
    assert (forallb (in_unit_interval float32)
              (scaled_byte float32 <$> v :: vs) = true) as Hall.
    { apply forallb_forall. intros x Hx.
      apply list_elem_of_In in Hx.
      apply list_elem_of_fmap in Hx as (z & -> & Hz).
      apply scaled_byte_in_unit_interval.
      by apply (proj1 (Forall_forall _ _) Hvs). }
    rewrite fmap_cons in Hall |- *. by rewrite Hall, Hdtype.
Qed.

Lemma normalize_accepts_its_float32_output_witness :
  ∃ batch1 xs,
    process (init "raw") {[ "raw" := IntArray uint8 [0; 128; 255] ]} = Ok batch1 ∧
    batch1 !! "raw" = Some (FloatArray float32 xs) ∧
    process (init "raw") batch1
    = Ok (<[ "raw" := mul_scalar (astype (FloatArray float32 xs) float32)
                                (F64.of_Z 1) ]> batch1).
Proof.
  apply (normalize_accepts_its_float32_output (init "raw")
           {[ "raw" := IntArray uint8 [0; 128; 255] ]} [0; 128; 255]);
    [done|done|done|].
  repeat constructor; lia.
Defined.

End NormalizeOutcomes.
